(** * vkcapture_exe_override: a readlink / readlinkat interposer

    Shallow embedding of [scripts/vkcapture_exe_override.c].

    Conventions of the embedding.
    - A [char] is a [Byte.byte]; [size_t] values are in [N], [ssize_t] and
      [int] values in [Z].  The two conversions the source performs,
      [(int)dir_len] and [(ssize_t)copy_len], are written out as two's
      complement wrap-around at 32 and 64 bits (the LP64 Linux ABI).
    - A [char *] is an [option (list byte)]: [None] is the null pointer and
      [Some m] gives the bytes stored from the pointer on.  The C string a
      library function reads from [m] is [c_str m], the bytes before the
      first NUL; the end of the list counts as a terminator.
    - Accesses outside an object are undefined in C.  The helpers below are
      total; what they return there is noted at each of them, and the
      theorems that depend on an access being in range say so.
    - [PATH_MAX], [EINVAL], [ENOSYS] and [EOVERFLOW] come from system
      headers and are parameters, as are the dynamic linker and the code of
      the original implementations.
    - [readlink] and [readlinkat] follow the source as written.  <unistd.h>
      declares their paths nonnull, so an optimising compiler may drop the
      null tests of lines 62 and 84: [readlink_built] and [readlinkat_built]
      are the wrappers without them.  The two agree on every path that is
      not null.
    - The process carries a trace of the calls that leave the library
      ([getenv], [dlsym], the originals) and of the calls of
      [build_override], so that "is called" and "is not called" can be
      stated. *)

From Stdlib Require Import String List ZArith NArith Lia Bool.
From Stdlib Require Import Strings.Byte.
Import ListNotations.

Local Open Scope N_scope.

(** ** The C library functions the source calls *)

Module Libc.

(** The string stored at the start of [m]. *)
Fixpoint c_str (m : list byte) : list byte :=
  match m with
  | [] => []
  | b :: m' => if Byte.eqb b x00 then [] else b :: c_str m'
  end.

Definition strlen (m : list byte) : N := N.of_nat (length (c_str m)).

(** Offset of the last occurrence of [c] in [s]. *)
Fixpoint rindex (c : byte) (s : list byte) : option nat :=
  match s with
  | [] => None
  | b :: s' =>
      match rindex c s' with
      | Some i => Some (S i)
      | None => if Byte.eqb b c then Some O else None
      end
  end.

(** [strrchr(m, c) - m]; the terminating NUL is part of the string. *)
Definition strrchr (m : list byte) (c : byte) : option N :=
  option_map N.of_nat (rindex c (c_str m ++ [x00])).

Fixpoint strcmp_from (a b : list byte) : Z :=
  match a, b with
  | [], [] => 0%Z
  | [], y :: _ => (- Z.of_N (Byte.to_N y))%Z
  | x :: _, [] => Z.of_N (Byte.to_N x)
  | x :: a', y :: b' =>
      if Byte.eqb x y then strcmp_from a' b'
      else (Z.of_N (Byte.to_N x) - Z.of_N (Byte.to_N y))%Z
  end.

Definition strcmp (a b : list byte) : Z := strcmp_from (c_str a) (c_str b).

(** Conversion directives. A negative precision counts as omitted. *)
Definition fmt_s (m : list byte) : list byte := c_str m.

Definition fmt_prec_s (prec : Z) (m : list byte) : list byte :=
  if (prec <? 0)%Z then c_str m else firstn (Z.to_nat prec) (c_str m).

(** [snprintf(out, size, ...)] where the directives expand to [formatted]:
    the bytes stored from [out[0]] on.  Nothing is stored when [size] is 0.
    The call fails when the expansion is longer than INT_MAX (see
    [snprintf_errno]); what a C library leaves in [out] then is its own
    business, and the cut expansion stands for it here. *)
Definition snprintf (size : N) (formatted : list byte) : list byte :=
  if size =? 0 then [] else firstn (N.to_nat (size - 1)) formatted ++ [x00].

Definition INT_MAX : Z := (2 ^ 31 - 1)%Z.

(** [errno] after that call, [e] being its value before: the call returns
    the length of the expansion as an [int], and fails with EOVERFLOW when
    that length does not fit. *)
Definition snprintf_errno (EOVERFLOW : Z) (formatted : list byte) (e : Z) : Z :=
  if (INT_MAX <? Z.of_nat (length formatted))%Z then EOVERFLOW else e.

(** [memcpy(dst, src, n)]: the region at [dst] afterwards.  Undefined in C
    when either region is shorter than [n]. *)
Definition memcpy (dst src : list byte) (n : N) : list byte :=
  firstn (N.to_nat n) src ++ skipn (N.to_nat n) dst.

(** [a[i] = v].  Undefined in C when [i] is outside the array; the array is
    left as it is here. *)
Definition store (a : list byte) (i : nat) (v : byte) : list byte :=
  if (i <? length a)%nat then firstn i a ++ v :: skipn (S i) a else a.

(** Two's complement reading of the low [bits] bits of [v]. *)
Definition signed (bits : Z) (v : Z) : Z :=
  let m := (v mod 2 ^ bits)%Z in
  if (m <? 2 ^ (bits - 1))%Z then m else (m - 2 ^ bits)%Z.

Definition to_int (n : N) : Z := signed 32 (Z.of_N n).
Definition to_ssize_t (n : N) : Z := signed 64 (Z.of_N n).

End Libc.

Import Libc.

(** A C string literal. *)
Definition lit (s : string) : list byte := list_byte_of_string s.

Definition slash : byte := x2f.

(** ** Path synthesis *)

Section Synthesis.

Variable PATH_MAX : N.

(** Lines 39-50: the contents of [out] once it has been formatted. *)
Definition synthesized (real_path override : list byte) : list byte :=
  match strrchr real_path slash with
  | Some dir_len =>
      if dir_len =? 0 then
        snprintf PATH_MAX ([slash] ++ fmt_s override)
      else
        snprintf PATH_MAX
          (fmt_prec_s (to_int dir_len) real_path ++ [slash] ++ fmt_s override)
  | None => snprintf PATH_MAX (fmt_s override)
  end.

(** Lines 39-50: [errno] once [out] has been formatted, [e] being its value
    on entry.  Nothing after line 50 touches [errno]. *)
Definition synthesized_errno (EOVERFLOW : Z) (real_path override : list byte)
    (e : Z) : Z :=
  match strrchr real_path slash with
  | Some dir_len =>
      if dir_len =? 0 then
        snprintf_errno EOVERFLOW ([slash] ++ fmt_s override) e
      else
        snprintf_errno EOVERFLOW
          (fmt_prec_s (to_int dir_len) real_path ++ [slash] ++ fmt_s override)
          e
  | None => snprintf_errno EOVERFLOW (fmt_s override) e
  end.

(** Returns the result and the caller's buffer afterwards; [errno]
    afterwards is [synthesized_errno]. *)
Definition build_override (real_path override : list byte)
    (buf : option (list byte)) (bufsiz : N) : Z * option (list byte) :=
  let out := synthesized real_path override in
  let out_len := strlen out in
  let copy_len := if out_len <? bufsiz then out_len else bufsiz in
  let buf' :=
    match buf with
    | Some dst => if 0 <? copy_len then Some (memcpy dst out copy_len) else buf
    | None => None
    end in
  (to_ssize_t copy_len, buf').

End Synthesis.

(** ** The process around the library *)

(** A code address; a function pointer is an [option addr]. *)
Definition addr := positive.

Inductive event : Type :=
| EvGetenv (name : string)
| EvDlsym (name : string) (found : option addr)
| EvReadlink (f : addr) (path buf : option (list byte)) (bufsiz : N)
| EvReadlinkat (f : addr) (dirfd : Z) (path buf : option (list byte))
    (bufsiz : N)
| EvBuildOverride (real_path override : list byte).

(** What a call of an original implementation does: its result, the bytes it
    stores from [buf[0]] on, the world it leaves and the [errno] it leaves. *)
Record sysret (World : Type) : Type := SysRet {
  sr_ret : Z;
  sr_stored : list byte;
  sr_world : World;
  sr_errno : Z
}.
Arguments SysRet {World}.
Arguments sr_ret {World}.
Arguments sr_stored {World}.
Arguments sr_world {World}.
Arguments sr_errno {World}.

(** The two file-scope pointers, [errno], the environment, whatever else the
    original implementations and the dynamic linker depend on ([world]), and
    the calls that left the library so far, oldest first ([trace], which the
    source does not have: it is there to count them). *)
Record process (World : Type) : Type := Process {
  real_readlink_fn : option addr;
  real_readlinkat_fn : option addr;
  errno : Z;
  environ : list (string * list byte);
  world : World;
  trace : list event
}.
Arguments Process {World}.
Arguments real_readlink_fn {World}.
Arguments real_readlinkat_fn {World}.
Arguments errno {World}.
Arguments environ {World}.
Arguments world {World}.
Arguments trace {World}.

(** The region at [buf] after [w] was stored at its start. *)
Definition poke (buf : option (list byte)) (w : list byte)
  : option (list byte) :=
  option_map (fun dst => w ++ skipn (length w) dst) buf.

(** The array a non-null pointer points to. *)
Definition pointee (p : option (list byte)) : list byte :=
  match p with Some m => m | None => [] end.

Definition is_null {A : Type} (p : option A) : bool :=
  match p with Some _ => false | None => true end.

(** [*p] for a non-null [p]. *)
Definition deref (p : option (list byte)) : byte := hd x00 (pointee p).

Section Interposer.

Variable World : Type.
Variable PATH_MAX : N.
Variables EINVAL ENOSYS EOVERFLOW : Z.

Definition readlink_t : Type :=
  option (list byte) -> option (list byte) -> N -> World -> Z -> sysret World.
Definition readlinkat_t : Type :=
  Z -> option (list byte) -> option (list byte) -> N -> World -> Z ->
  sysret World.

(** [dlsym(RTLD_NEXT, name)]. *)
Variable dlsym_next : World -> string -> option addr.
(** The functions found at an address, at either type. *)
Variable code_readlink : addr -> readlink_t.
Variable code_readlinkat : addr -> readlinkat_t.
(** The indeterminate bytes of an automatic array before it is written. *)
Variable junk : nat -> byte.

Definition uninitialized (size : N) : list byte :=
  map junk (seq 0 (N.to_nat size)).

Definition log (e : event) (st : process World) : process World :=
  Process (real_readlink_fn st) (real_readlinkat_fn st) (errno st)
    (environ st) (world st) (trace st ++ [e]).

Definition set_errno (e : Z) (st : process World) : process World :=
  Process (real_readlink_fn st) (real_readlinkat_fn st) e
    (environ st) (world st) (trace st).

Definition set_real_readlink_fn (p : option addr) (st : process World) :=
  Process p (real_readlinkat_fn st) (errno st) (environ st) (world st)
    (trace st).

Definition set_real_readlinkat_fn (p : option addr) (st : process World) :=
  Process (real_readlink_fn st) p (errno st) (environ st) (world st)
    (trace st).

(** The process after an original implementation returned [r]. *)
Definition returned (r : sysret World) (st : process World) :=
  Process (real_readlink_fn st) (real_readlinkat_fn st) (sr_errno r)
    (environ st) (sr_world r) (trace st).

Fixpoint lookup_env (name : string) (env : list (string * list byte))
  : option (list byte) :=
  match env with
  | [] => None
  | (k, v) :: env' => if String.eqb k name then Some v else lookup_env name env'
  end.

Definition getenv (name : string) (st : process World)
  : option (list byte) * process World :=
  (lookup_env name (environ st), log (EvGetenv name) st).

Definition dlsym (name : string) (st : process World)
  : option addr * process World :=
  let found := dlsym_next (world st) name in
  (found, log (EvDlsym name found) st).

Definition call_real_readlink (path buf : option (list byte)) (bufsiz : N)
    (st : process World) : Z * option (list byte) * process World :=
  let st :=
    if is_null (real_readlink_fn st) then
      let '(found, st) := dlsym "readlink" st in
      set_real_readlink_fn found st
    else st in
  match real_readlink_fn st with
  | None => ((-1)%Z, buf, set_errno ENOSYS st)
  | Some f =>
      let r := code_readlink f path buf bufsiz (world st) (errno st) in
      (sr_ret r, poke buf (sr_stored r),
       returned r (log (EvReadlink f path buf bufsiz) st))
  end.

Definition call_real_readlinkat (dirfd : Z) (path buf : option (list byte))
    (bufsiz : N) (st : process World)
  : Z * option (list byte) * process World :=
  let st :=
    if is_null (real_readlinkat_fn st) then
      let '(found, st) := dlsym "readlinkat" st in
      set_real_readlinkat_fn found st
    else st in
  match real_readlinkat_fn st with
  | None => ((-1)%Z, buf, set_errno ENOSYS st)
  | Some f =>
      let r := code_readlinkat f dirfd path buf bufsiz (world st) (errno st) in
      (sr_ret r, poke buf (sr_stored r),
       returned r (log (EvReadlinkat f dirfd path buf bufsiz) st))
  end.

Definition proc_self_exe : list byte := lit "/proc/self/exe".

(** Lines 72-79 and 94-101, after the inner call returned [n] and left
    [real_path]. *)
Definition finish_override (n : Z) (real_path override : list byte)
    (buf : option (list byte)) (bufsiz : N) (st : process World)
  : Z * option (list byte) * process World :=
  if (n <? 0)%Z then (n, buf, st)
  else
    let real_path := store real_path (Z.to_nat n) x00 in
    let '(r, buf') := build_override PATH_MAX real_path override buf bufsiz in
    (r, buf',
     set_errno (synthesized_errno EOVERFLOW real_path override (errno st))
       (log (EvBuildOverride real_path override) st)).

Definition readlink (path buf : option (list byte)) (bufsiz : N)
    (st : process World) : Z * option (list byte) * process World :=
  if is_null path then ((-1)%Z, buf, set_errno EINVAL st)
  else
    let '(override, st) := getenv "OBS_VKCAPTURE_EXE_NAME" st in
    if is_null override || Byte.eqb (deref override) x00
       || negb (strcmp (pointee path) proc_self_exe =? 0)%Z
    then call_real_readlink path buf bufsiz st
    else
      let real_path := Some (uninitialized PATH_MAX) in
      let '(n, real_path, st) :=
        call_real_readlink path real_path (PATH_MAX - 1) st in
      finish_override n (pointee real_path) (pointee override) buf bufsiz st.

Definition readlinkat (dirfd : Z) (path buf : option (list byte))
    (bufsiz : N) (st : process World)
  : Z * option (list byte) * process World :=
  if is_null path then ((-1)%Z, buf, set_errno EINVAL st)
  else
    let '(override, st) := getenv "OBS_VKCAPTURE_EXE_NAME" st in
    if is_null override || Byte.eqb (deref override) x00
       || negb (strcmp (pointee path) proc_self_exe =? 0)%Z
    then call_real_readlinkat dirfd path buf bufsiz st
    else
      let real_path := Some (uninitialized PATH_MAX) in
      let '(n, real_path, st) :=
        call_real_readlinkat dirfd path real_path (PATH_MAX - 1) st in
      finish_override n (pointee real_path) (pointee override) buf bufsiz st.

(** The wrappers as an optimising compiler builds them.  <unistd.h> declares
    the path of [readlink] and of [readlinkat] nonnull, which lets the
    compiler take the tests of lines 62 and 84 for false and drop lines
    62-65 and 84-87; the rest is as written.  On a null path [strcmp] is
    undefined (a crash in practice); it compares the empty string here. *)
Definition readlink_built (path buf : option (list byte)) (bufsiz : N)
    (st : process World) : Z * option (list byte) * process World :=
  let '(override, st) := getenv "OBS_VKCAPTURE_EXE_NAME" st in
  if is_null override || Byte.eqb (deref override) x00
     || negb (strcmp (pointee path) proc_self_exe =? 0)%Z
  then call_real_readlink path buf bufsiz st
  else
    let real_path := Some (uninitialized PATH_MAX) in
    let '(n, real_path, st) :=
      call_real_readlink path real_path (PATH_MAX - 1) st in
    finish_override n (pointee real_path) (pointee override) buf bufsiz st.

Definition readlinkat_built (dirfd : Z) (path buf : option (list byte))
    (bufsiz : N) (st : process World)
  : Z * option (list byte) * process World :=
  let '(override, st) := getenv "OBS_VKCAPTURE_EXE_NAME" st in
  if is_null override || Byte.eqb (deref override) x00
     || negb (strcmp (pointee path) proc_self_exe =? 0)%Z
  then call_real_readlinkat dirfd path buf bufsiz st
  else
    let real_path := Some (uninitialized PATH_MAX) in
    let '(n, real_path, st) :=
      call_real_readlinkat dirfd path real_path (PATH_MAX - 1) st in
    finish_override n (pointee real_path) (pointee override) buf bufsiz st.

End Interposer.

(** ** Vocabulary of the properties *)

Definition override_var : string := "OBS_VKCAPTURE_EXE_NAME".

(** A path given by its directory (if it has a separator) and its last
    component, and the replacement expected for it. *)
Definition whole (dir : option (list byte)) (base : list byte) : list byte :=
  match dir with
  | Some d => d ++ slash :: base
  | None => base
  end.

Definition joined (dir : option (list byte)) (override : list byte)
  : list byte :=
  match dir with
  | Some d => d ++ slash :: override
  | None => override
  end.

(** The directory is printed with [(int)dir_len] as precision: it comes out
    whole as long as its length is an [int]. *)
Definition short_dir (dir : option (list byte)) : Prop :=
  forall d, dir = Some d -> N.of_nat (length d) < 2 ^ 31.

(** What the directives of lines 44, 46 and 49 expand to, before any bound. *)
Definition formatted (real_path override : list byte) : list byte :=
  match strrchr real_path slash with
  | Some dir_len =>
      if dir_len =? 0 then [slash] ++ fmt_s override
      else fmt_prec_s (to_int dir_len) real_path ++ [slash] ++ fmt_s override
  | None => fmt_s override
  end.

(** The answers [dlsym] gave for [name], oldest first. *)
Fixpoint lookups (name : string) (t : list event) : list (option addr) :=
  match t with
  | [] => []
  | EvDlsym k found :: t' =>
      if String.eqb k name then found :: lookups name t' else lookups name t'
  | _ :: t' => lookups name t'
  end.

(** The addresses at which the original called [name] was entered, oldest
    first. *)
Fixpoint callees (name : string) (t : list event) : list addr :=
  match t with
  | [] => []
  | EvReadlink f _ _ _ :: t' =>
      if String.eqb name "readlink" then f :: callees name t'
      else callees name t'
  | EvReadlinkat f _ _ _ _ :: t' =>
      if String.eqb name "readlinkat" then f :: callees name t'
      else callees name t'
  | _ :: t' => callees name t'
  end.

Definition is_real_call (e : event) : bool :=
  match e with
  | EvReadlink _ _ _ _ | EvReadlinkat _ _ _ _ _ => true
  | _ => false
  end.

Definition is_synthesis (e : event) : bool :=
  match e with
  | EvBuildOverride _ _ => true
  | _ => false
  end.

Definition is_getenv (e : event) : bool :=
  match e with
  | EvGetenv _ => true
  | _ => false
  end.

Definition pointer_list (p : option addr) : list (option addr) :=
  match p with
  | Some a => [Some a]
  | None => []
  end.

(** What is known of the symbol [name] when its pointer is [p] after the
    trace [t]: every lookup but the one that gave [p] found nothing, and
    every call of the original went to [p]. *)
Definition resolved_once (name : string) (p : option addr) (t : list event)
  : Prop :=
  (exists k, lookups name t = repeat None k ++ pointer_list p) /\
  (forall a, In a (callees name t) -> p = Some a).

(** How one call of a wrapper can change it: nothing happens to the symbol;
    the cached pointer is used; the lookup succeeds and its answer is cached
    and used; the lookup fails. *)
Definition resolution_step (name : string) (p : option addr) (t : list event)
    (p' : option addr) (t' : list event) : Prop :=
  (p' = p /\ lookups name t' = lookups name t /\
   callees name t' = callees name t) \/
  (exists f, p = Some f /\ p' = Some f /\ lookups name t' = lookups name t /\
             callees name t' = callees name t ++ [f]) \/
  (exists f, p = None /\ p' = Some f /\
             lookups name t' = lookups name t ++ [Some f] /\
             callees name t' = callees name t ++ [f]) \/
  (p = None /\ p' = None /\ lookups name t' = lookups name t ++ [None] /\
   callees name t' = callees name t).

(** The calls one resolution of [name] makes: the original at the cached
    pointer; or the lookup, and the original if the lookup found it. *)
Definition resolution_events (name : string) (cached found : option addr)
    (call : addr -> event) : list event :=
  match cached with
  | Some f => [call f]
  | None =>
      EvDlsym name found ::
      match found with
      | Some f => [call f]
      | None => []
      end
  end.

Section Vocabulary.

Variable World : Type.

(** Lines 68 and 90 send the call to the override path. *)
Definition takes_override (path : option (list byte)) (st : process World)
  : bool :=
  let override := lookup_env override_var (environ st) in
  negb (is_null override || Byte.eqb (deref override) x00
        || negb (strcmp (pointee path) (proc_self_exe) =? 0)%Z).

(** What the caller can observe of a call: the result, the destination,
    [errno] and the world. *)
Definition observable (r : Z * option (list byte) * process World)
  : Z * option (list byte) * Z * World :=
  let '(n, buf, st) := r in (n, buf, errno st, world st).

(** The process had it called the original implementation itself. *)
Definition direct (r : sysret World) (buf : option (list byte))
    (st : process World) : Z * option (list byte) * process World :=
  (sr_ret r, poke buf (sr_stored r),
   Process (real_readlink_fn st) (real_readlinkat_fn st) (sr_errno r)
     (environ st) (sr_world r) (trace st)).

Variable PATH_MAX : N.
Variables EINVAL ENOSYS EOVERFLOW : Z.
Variable dlsym_next : World -> string -> option addr.
Variable code_readlink : addr -> readlink_t World.
Variable code_readlinkat : addr -> readlinkat_t World.
Variable junk : nat -> byte.

(** What the caller sees of lines 74-79, given what the inner call
    returned, stored and left. *)
Definition override_outcome (r : sysret World) (override : list byte)
    (buf : option (list byte)) (bufsiz : N)
  : Z * option (list byte) * Z * World :=
  let target :=
    store (pointee (poke (Some (uninitialized junk PATH_MAX)) (sr_stored r)))
      (Z.to_nat (sr_ret r)) x00 in
  (if (sr_ret r <? 0)%Z then (sr_ret r, buf)
   else build_override PATH_MAX target override buf bufsiz,
   if (sr_ret r <? 0)%Z then sr_errno r
   else synthesized_errno EOVERFLOW target override (sr_errno r),
   sr_world r).

(** The original a call of the wrapper will use. *)
Definition resolved (name : string) (cached : option addr)
    (st : process World) : option addr :=
  match cached with
  | Some f => Some f
  | None => dlsym_next (world st) name
  end.

(** The process starts with both pointers null.  It calls the wrappers, as
    written or as built; between calls the program may change [errno], the
    environment and the world, not the two pointers, which have internal
    linkage. *)
Definition initial (st : process World) : Prop :=
  real_readlink_fn st = None /\ real_readlinkat_fn st = None /\
  trace st = [].

Inductive step : process World -> process World -> Prop :=
| step_readlink path buf bufsiz st :
    step st
      (snd (readlink World PATH_MAX EINVAL ENOSYS EOVERFLOW dlsym_next
              code_readlink junk path buf bufsiz st))
| step_readlinkat dirfd path buf bufsiz st :
    step st
      (snd (readlinkat World PATH_MAX EINVAL ENOSYS EOVERFLOW dlsym_next
              code_readlinkat junk dirfd path buf bufsiz st))
| step_readlink_built path buf bufsiz st :
    step st
      (snd (readlink_built World PATH_MAX ENOSYS EOVERFLOW dlsym_next
              code_readlink junk path buf bufsiz st))
| step_readlinkat_built dirfd path buf bufsiz st :
    step st
      (snd (readlinkat_built World PATH_MAX ENOSYS EOVERFLOW dlsym_next
              code_readlinkat junk dirfd path buf bufsiz st))
| step_program st e env w :
    step st
      (Process (real_readlink_fn st) (real_readlinkat_fn st) e env w
         (trace st)).

Inductive reachable : process World -> Prop :=
| reach_initial st : initial st -> reachable st
| reach_step st st' : reachable st -> step st st' -> reachable st'.

(** "The lookup is invoked at most once per intercepted symbol over the
    process lifetime." *)
Definition looked_up_at_most_once : Prop :=
  forall st, reachable st ->
    (length (lookups "readlink" (trace st)) <= 1)%nat /\
    (length (lookups "readlinkat" (trace st)) <= 1)%nat.

(** "On the override path, once the inner call has succeeded, the synthesis
    and the copy do not set errno." *)
Definition override_keeps_errno : Prop :=
  forall p buf bufsiz st n real_path st',
    takes_override (Some p) st = true ->
    call_real_readlink World ENOSYS dlsym_next code_readlink (Some p)
      (Some (uninitialized junk PATH_MAX)) (PATH_MAX - 1)
      (log World (EvGetenv override_var) st) = (n, real_path, st') ->
    (0 <= n)%Z ->
    errno (snd (readlink World PATH_MAX EINVAL ENOSYS EOVERFLOW dlsym_next
                  code_readlink junk (Some p) buf bufsiz st))
    = errno st'.

End Vocabulary.

(** "For every real resolved path R and non-empty override string O the
    synthesized path is the directory of R joined with O", R and O being the
    strings held at [real_path] and [override]. *)
Definition joins_every_path (PATH_MAX : N) : Prop :=
  forall real_path override dir base,
    c_str real_path = whole dir base -> ~ In slash base ->
    c_str override <> [] ->
    c_str (synthesized PATH_MAX real_path override)
    = joined dir (c_str override).

(** "With a null destination the call writes nothing and returns 0." *)
Definition null_buffer_returns_zero (PATH_MAX : N) : Prop :=
  forall real_path override bufsiz,
    build_override PATH_MAX real_path override None bufsiz = (0%Z, None).

(** ** A small Linux-like system to run the model on *)

Module Demo.

Definition PATH_MAX : N := 4096.
Definition EINVAL : Z := 22.
Definition ENOSYS : Z := 38.
Definition EOVERFLOW : Z := 75.
Definition ENOENT : Z := 2.
Definition EFAULT : Z := 14.

(** The world is the table of symbolic links. *)
Definition World : Type := list (list byte * list byte).

Fixpoint target (path : list byte) (w : World) : option (list byte) :=
  match w with
  | [] => None
  | (p, t) :: w' =>
      if (strcmp p path =? 0)%Z then Some t else target path w'
  end.

Definition sys_readlink : readlink_t World :=
  fun path buf bufsiz w e =>
    match path, buf with
    | Some p, Some _ =>
        match target p w with
        | Some t =>
            let n := N.min (N.of_nat (length t)) bufsiz in
            SysRet (Z.of_N n) (firstn (N.to_nat n) t) w e
        | None => SysRet (-1) [] w ENOENT
        end
    | _, _ => SysRet (-1) [] w EFAULT
    end.

Definition sys_readlinkat : readlinkat_t World :=
  fun dirfd path buf bufsiz w e => sys_readlink path buf bufsiz w e.

Definition dlsym_next (w : World) (name : string) : option addr :=
  if String.eqb name "readlink" then Some 1%positive
  else if String.eqb name "readlinkat" then Some 2%positive
  else None.

(** A process image in which no later object defines the symbols. *)
Definition dlsym_nothing (w : World) (name : string) : option addr := None.

Definition code_readlink (f : addr) : readlink_t World := sys_readlink.
Definition code_readlinkat (f : addr) : readlinkat_t World := sys_readlinkat.

Definition junk (i : nat) : byte := xaa.

(** A process image that gets the originals only once the world has links
    (a library loaded late). *)
Definition dlsym_late (w : World) (name : string) : option addr :=
  match w with
  | [] => None
  | _ :: _ => dlsym_next w name
  end.

(** The wrappers in a process image without the originals. *)
Definition readlink_alone :=
  readlink World PATH_MAX EINVAL ENOSYS EOVERFLOW dlsym_nothing code_readlink
    junk.
Definition readlinkat_alone :=
  readlinkat World PATH_MAX EINVAL ENOSYS EOVERFLOW dlsym_nothing
    code_readlinkat junk.

(** The wrappers of an optimising build. *)
Definition readlink_built :=
  readlink_built World PATH_MAX ENOSYS EOVERFLOW dlsym_next code_readlink
    junk.
Definition readlinkat_built :=
  readlinkat_built World PATH_MAX ENOSYS EOVERFLOW dlsym_next code_readlinkat
    junk.

Definition readlink :=
  readlink World PATH_MAX EINVAL ENOSYS EOVERFLOW dlsym_next code_readlink
    junk.
Definition readlinkat :=
  readlinkat World PATH_MAX EINVAL ENOSYS EOVERFLOW dlsym_next code_readlinkat
    junk.

Definition links : World :=
  [(lit "/proc/self/exe", lit "/usr/bin/realprog");
   (lit "/etc/localtime", lit "/usr/share/zoneinfo/UTC")].

Definition start (env : list (string * list byte)) : process World :=
  Process None None 0%Z env links [].

Definition with_override : process World :=
  start [("HOME"%string, lit "/root"); (override_var, lit "fakeprog")].


(** The same process where "/proc/self/exe" does not resolve. *)
Definition stranded : process World :=
  Process None None 0%Z [(override_var, lit "fakeprog")] [] [].

Definition room (n : nat) : option (list byte) := Some (repeat x2e n).

Definition long_override : list byte := repeat x61 4096.

(** An override of 2^31 bytes. *)
Definition huge_override : list byte := repeat x61 (N.to_nat (2 ^ 31)).

End Demo.

Example build_override_usr_bin :
  build_override 4096 (lit "/usr/bin/realprog") (lit "fakeprog")
    (Some (repeat x2e 20)) 20
  = (17%Z, Some (lit "/usr/bin/fakeprog" ++ repeat x2e 3)).
Proof. reflexivity. Qed.

Example readlink_overrides :
  observable _ (Demo.readlink (Some (lit "/proc/self/exe")) (Demo.room 20) 20
                  Demo.with_override)
  = (17%Z, Some (lit "/usr/bin/fakeprog" ++ repeat x2e 3), 0%Z, Demo.links).
Proof. vm_compute. reflexivity. Qed.

Example readlink_truncates :
  observable _ (Demo.readlink (Some (lit "/proc/self/exe")) (Demo.room 20) 8
                  Demo.with_override)
  = (8%Z, Some (lit "/usr/bin" ++ repeat x2e 12), 0%Z, Demo.links).
Proof. vm_compute. reflexivity. Qed.

Example readlink_passes_through :
  observable _ (Demo.readlink (Some (lit "/etc/localtime")) (Demo.room 30) 30
                  Demo.with_override)
  = (23%Z, Some (lit "/usr/share/zoneinfo/UTC" ++ repeat x2e 7), 0%Z,
     Demo.links).
Proof. vm_compute. reflexivity. Qed.

Example readlinkat_trace :
  trace (snd (Demo.readlinkat (-100) (Some (lit "/proc/self/exe"))
                (Demo.room 20) 20 Demo.with_override))
  = [EvGetenv override_var; EvDlsym "readlinkat" (Some 2%positive);
     EvReadlinkat 2%positive (-100) (Some (lit "/proc/self/exe"))
       (Some (repeat xaa 4096)) 4095;
     EvBuildOverride (lit "/usr/bin/realprog" ++ x00 :: repeat xaa 4078)
       (lit "fakeprog")].
Proof. vm_compute. reflexivity. Qed.

(** ** Facts about the library functions *)

Section LibcFacts.

Lemma c_str_nul_free (m : list byte) : ~ In x00 (c_str m).
Proof.
  induction m as [|b m IH]; simpl; [tauto|].
  destruct (Byte.eqb b x00) eqn:E; simpl; [tauto|].
  intros [H|H]; [|tauto].
  subst b. rewrite (Byte.byte_dec_lb (eq_refl x00)) in E. discriminate.
Qed.

Lemma c_str_id (s : list byte) : ~ In x00 s -> c_str s = s.
Proof.
  induction s as [|b s IH]; simpl; intros H; [reflexivity|].
  destruct (Byte.eqb b x00) eqn:E.
  - apply Byte.byte_dec_bl in E. subst b. tauto.
  - f_equal. apply IH. tauto.
Qed.

Lemma c_str_idem (m : list byte) : c_str (c_str m) = c_str m.
Proof. apply c_str_id, c_str_nul_free. Qed.

Lemma c_str_terminated (s t : list byte) :
  ~ In x00 s -> c_str (s ++ x00 :: t) = s.
Proof.
  induction s as [|b s IH]; simpl; intros H; [reflexivity|].
  destruct (Byte.eqb b x00) eqn:E.
  - apply Byte.byte_dec_bl in E. subst b. tauto.
  - f_equal. apply IH. tauto.
Qed.

Lemma c_str_cut (s t : list byte) : c_str (s ++ x00 :: t) = c_str s.
Proof.
  induction s as [|b s IH]; simpl; [reflexivity|].
  destruct (Byte.eqb b x00); [reflexivity|]. f_equal. exact IH.
Qed.

(** Line 77 ends the real target after the [n] bytes the inner call
    reported. *)
Lemma c_str_store (a : list byte) (n : nat) :
  (n < length a)%nat -> c_str (store a n x00) = c_str (firstn n a).
Proof.
  intros H. unfold store.
  destruct (Nat.ltb_spec n (length a)) as [_|H']; [|lia].
  rewrite c_str_cut. reflexivity.
Qed.

Lemma firstn_nul_free (k : nat) (s : list byte) :
  ~ In x00 s -> ~ In x00 (firstn k s).
Proof.
  intros H Hin. apply H.
  rewrite <- (firstn_skipn k s). apply in_or_app. now left.
Qed.

Lemma rindex_app (c : byte) (s t : list byte) :
  rindex c (s ++ t) =
  match rindex c t with
  | Some i => Some (length s + i)%nat
  | None => rindex c s
  end.
Proof.
  induction s as [|b s IH]; simpl.
  - destruct (rindex c t); reflexivity.
  - rewrite IH. destruct (rindex c t); reflexivity.
Qed.

Lemma rindex_absent (c : byte) (s : list byte) :
  ~ In c s -> rindex c s = None.
Proof.
  induction s as [|b s IH]; simpl; intros H; [reflexivity|].
  rewrite IH by tauto.
  destruct (Byte.eqb b c) eqn:E; [|reflexivity].
  apply Byte.byte_dec_bl in E. subst b. tauto.
Qed.

Lemma rindex_last (c : byte) (d b : list byte) :
  ~ In c b -> rindex c (d ++ c :: b) = Some (length d).
Proof.
  intros H. rewrite rindex_app. simpl.
  rewrite (rindex_absent c b H), (Byte.byte_dec_lb (eq_refl c)).
  f_equal. lia.
Qed.

Lemma strrchr_slash (s : list byte) :
  ~ In x00 s ->
  strrchr s slash = option_map N.of_nat (rindex slash s).
Proof.
  intros H. unfold strrchr. rewrite (c_str_id s H), rindex_app.
  reflexivity.
Qed.

Lemma strcmp_from_zero (a b : list byte) :
  ~ In x00 a -> ~ In x00 b -> (strcmp_from a b = 0%Z <-> a = b).
Proof.
  assert (Hz : forall y, Byte.to_N y = 0 -> y = x00).
  { intros y Hy. pose proof (Byte.of_to_N y) as E. rewrite Hy in E.
    simpl in E. congruence. }
  revert b. induction a as [|x a IH]; intros [|y b] Ha Hb; simpl.
  - tauto.
  - split; [|discriminate]. intros E. exfalso. apply Hb. left.
    apply Hz. lia.
  - split; [|discriminate]. intros E. exfalso. apply Ha. left.
    apply Hz. lia.
  - simpl in Ha, Hb. destruct (Byte.eqb x y) eqn:E.
    + apply Byte.byte_dec_bl in E. subst y.
      rewrite IH by tauto. split; congruence.
    + apply Byte.eqb_false in E. split; [|congruence].
      intros E0. exfalso. apply E.
      assert (EN : Byte.to_N x = Byte.to_N y) by lia.
      pose proof (Byte.of_to_N x) as Ex. pose proof (Byte.of_to_N y) as Ey.
      rewrite EN in Ex. congruence.
Qed.

Lemma strcmp_zero (a b : list byte) :
  strcmp a b = 0%Z <-> c_str a = c_str b.
Proof. apply strcmp_from_zero; apply c_str_nul_free. Qed.

Lemma snprintf_length (size : N) (f : list byte) :
  N.of_nat (length (snprintf size f)) <= size.
Proof.
  unfold snprintf. destruct (N.eqb_spec size 0) as [E|E]; simpl; [lia|].
  rewrite length_app, length_firstn. simpl. lia.
Qed.

Lemma snprintf_c_str (size : N) (f : list byte) :
  ~ In x00 f -> c_str (snprintf size f) = firstn (N.to_nat (size - 1)) f.
Proof.
  intros H. unfold snprintf.
  destruct (N.eqb_spec size 0) as [E|E].
  - subst size. reflexivity.
  - apply c_str_terminated, firstn_nul_free, H.
Qed.

Lemma signed_small (bits v : Z) :
  (0 < bits)%Z -> (0 <= v < 2 ^ (bits - 1))%Z -> signed bits v = v.
Proof.
  intros Hb Hv. unfold signed.
  assert (E : (2 ^ bits = 2 * 2 ^ (bits - 1))%Z).
  { replace bits with (Z.succ (bits - 1)) at 1 by lia.
    apply Z.pow_succ_r. lia. }
  rewrite Z.mod_small by lia.
  destruct (Z.ltb_spec v (2 ^ (bits - 1))); lia.
Qed.

Lemma to_int_small (n : N) : n < 2 ^ 31 -> to_int n = Z.of_N n.
Proof.
  intros H. apply signed_small; [lia|].
  change (32 - 1)%Z with 31%Z. change (2 ^ 31)%Z with (Z.of_N (2 ^ 31)). lia.
Qed.

Lemma to_ssize_t_small (n : N) : n < 2 ^ 63 -> to_ssize_t n = Z.of_N n.
Proof.
  intros H. apply signed_small; [lia|].
  change (64 - 1)%Z with 63%Z. change (2 ^ 63)%Z with (Z.of_N (2 ^ 63)). lia.
Qed.

End LibcFacts.

(** ** Path synthesis: the string left in [out] and the copy *)

Section SynthesisFacts.

Variable PATH_MAX : N.

Lemma formatted_nul_free (real_path override : list byte) :
  ~ In x00 (formatted real_path override).
Proof.
  assert (Hs : ~ In x00 ([slash] ++ fmt_s override)).
  { intros [H|H]; [discriminate H|]. exact (c_str_nul_free _ H). }
  unfold formatted.
  destruct (strrchr real_path slash) as [dir_len|];
    [destruct (dir_len =? 0)|]; try exact Hs.
  - intros H. apply in_app_or in H. destruct H as [H|H]; [|exact (Hs H)].
    unfold fmt_prec_s in H. destruct (to_int dir_len <? 0)%Z.
    + exact (c_str_nul_free _ H).
    + exact (firstn_nul_free _ _ (c_str_nul_free _) H).
  - apply c_str_nul_free.
Qed.

Lemma synthesized_snprintf (real_path override : list byte) :
  synthesized PATH_MAX real_path override
  = snprintf PATH_MAX (formatted real_path override).
Proof.
  unfold synthesized, formatted.
  destruct (strrchr real_path slash) as [dir_len|];
    [destruct (dir_len =? 0)|]; reflexivity.
Qed.

Lemma synthesized_errno_formatted (EOVERFLOW : Z)
    (real_path override : list byte) (e : Z) :
  synthesized_errno EOVERFLOW real_path override e
  = snprintf_errno EOVERFLOW (formatted real_path override) e.
Proof.
  unfold synthesized_errno, formatted.
  destruct (strrchr real_path slash) as [dir_len|];
    [destruct (dir_len =? 0)|]; reflexivity.
Qed.

Lemma formatted_at_least_override (real_path override : list byte) :
  (length (c_str override) <= length (formatted real_path override))%nat.
Proof.
  unfold formatted, fmt_s.
  destruct (strrchr real_path slash) as [dir_len|];
    [destruct (dir_len =? 0)|]; rewrite ?length_app; simpl; lia.
Qed.

Lemma synthesized_c_str (real_path override : list byte) :
  c_str (synthesized PATH_MAX real_path override)
  = firstn (N.to_nat (PATH_MAX - 1)) (formatted real_path override).
Proof.
  rewrite synthesized_snprintf.
  apply snprintf_c_str, formatted_nul_free.
Qed.

Lemma strrchr_whole (dir : option (list byte)) (base : list byte) :
  ~ In x00 (whole dir base) -> ~ In slash base ->
  strrchr (whole dir base) slash
  = option_map (fun d => N.of_nat (length d)) dir.
Proof.
  intros Hn Hb. rewrite strrchr_slash by exact Hn.
  destruct dir as [d|]; simpl.
  - now rewrite rindex_last.
  - now rewrite rindex_absent.
Qed.

Lemma formatted_whole (dir : option (list byte)) (base override : list byte) :
  ~ In x00 (whole dir base) -> ~ In slash base ->
  N.of_nat (length (joined dir override)) < 2 ^ 31 ->
  formatted (whole dir base) override = joined dir (c_str override).
Proof.
  intros Hn Hb Hlen. unfold formatted.
  rewrite (strrchr_whole dir base Hn Hb).
  destruct dir as [d|]; simpl; [|reflexivity].
  simpl in Hlen. rewrite length_app in Hlen. simpl in Hlen.
  destruct (N.eqb_spec (N.of_nat (length d)) 0) as [E|E].
  - destruct d; [reflexivity|simpl in E; lia].
  - unfold fmt_prec_s. rewrite to_int_small by lia.
    destruct (Z.ltb_spec (Z.of_N (N.of_nat (length d))) 0); [lia|].
    simpl in Hn. rewrite (c_str_id _ Hn).
    replace (Z.to_nat (Z.of_N (N.of_nat (length d)))) with (length d) by lia.
    rewrite firstn_app, firstn_all, Nat.sub_diag, firstn_0, app_nil_r.
    reflexivity.
Qed.

Lemma formatted_reads_strings (real_path override : list byte) :
  formatted real_path override
  = formatted (c_str real_path) (c_str override).
Proof.
  unfold formatted, strrchr, fmt_s, fmt_prec_s.
  rewrite !c_str_idem. reflexivity.
Qed.

Lemma firstn_c_str (k : nat) (m : list byte) :
  (k <= length (c_str m))%nat -> firstn k m = firstn k (c_str m).
Proof.
  revert k. induction m as [|b m IH]; intros k; simpl; [reflexivity|].
  destruct (Byte.eqb b x00); simpl; intros H.
  - replace k with O by lia. reflexivity.
  - destruct k; [reflexivity|]. simpl. f_equal. apply IH. lia.
Qed.

Lemma strlen_synthesized (real_path override : list byte) :
  strlen (synthesized PATH_MAX real_path override) <= PATH_MAX - 1.
Proof.
  unfold strlen. rewrite synthesized_c_str, length_firstn. lia.
Qed.

(** The result and the destination of [build_override], in terms of the
    string held by [out]. *)
Lemma build_override_eq (real_path override : list byte)
    (buf : option (list byte)) (bufsiz : N) :
  PATH_MAX <= 2 ^ 63 ->
  let out := c_str (synthesized PATH_MAX real_path override) in
  let n := N.min (N.of_nat (length out)) bufsiz in
  build_override PATH_MAX real_path override buf bufsiz
  = (Z.of_N n,
     option_map
       (fun dst => firstn (N.to_nat n) out ++ skipn (N.to_nat n) dst) buf).
Proof.
  intros HP out n. unfold build_override.
  pose proof (strlen_synthesized real_path override) as Hlen.
  set (s := synthesized PATH_MAX real_path override) in *.
  assert (Hn : (if strlen s <? bufsiz then strlen s else bufsiz) = n).
  { unfold n, out, strlen.
    destruct (N.ltb_spec (N.of_nat (length (c_str s))) bufsiz); lia. }
  rewrite Hn. f_equal.
  - apply to_ssize_t_small. unfold strlen in Hlen. fold out in Hlen. lia.
  - destruct buf as [dst|]; simpl; [|reflexivity].
    destruct (N.ltb_spec 0 n) as [Hpos|Hz].
    + unfold memcpy. f_equal. f_equal. apply firstn_c_str.
      fold out. lia.
    + replace n with 0 by lia. reflexivity.
Qed.

End SynthesisFacts.

(** Membership in an explicit list of bytes, refuted by running through it. *)
Ltac absent :=
  let H := fresh "H" in
  intros H; vm_compute in H;
  repeat (destruct H as [H|H]; [discriminate H|]); exact H.

Lemma repeat_absent (b c : byte) (n : nat) : b <> c -> ~ In c (repeat b n).
Proof. intros Hne H. apply repeat_spec in H. congruence. Qed.

Section SynthesisClaims.

Variable PATH_MAX : N.

(** C9: whatever the real path and the override, formatting stores at most
    PATH_MAX bytes into [out], and the string left there is what the
    directives expand to, cut to PATH_MAX - 1 bytes. *)
Theorem synthesized_within_PATH_MAX (real_path override : list byte) :
  N.of_nat (length (synthesized PATH_MAX real_path override)) <= PATH_MAX /\
  strlen (synthesized PATH_MAX real_path override) <= PATH_MAX - 1 /\
  c_str (synthesized PATH_MAX real_path override)
  = firstn (N.to_nat (PATH_MAX - 1)) (formatted real_path override).
Proof.
  split; [|split].
  - rewrite synthesized_snprintf. apply snprintf_length.
  - apply strlen_synthesized.
  - apply synthesized_c_str.
Qed.

(** C3: with a destination, [build_override] copies the first
    min(length of the synthesized path, capacity) bytes of the synthesized
    path to the start of the destination and returns that count; the bytes
    of the destination after them stay as they were, no NUL is among the
    copied ones, and the count is the capacity when the capacity is the
    smaller. *)
Theorem build_override_copies (real_path override dst : list byte)
    (bufsiz : N) :
  PATH_MAX <= 2 ^ 63 ->
  let out := c_str (synthesized PATH_MAX real_path override) in
  let n := N.min (N.of_nat (length out)) bufsiz in
  build_override PATH_MAX real_path override (Some dst) bufsiz
  = (Z.of_N n, Some (firstn (N.to_nat n) out ++ skipn (N.to_nat n) dst)) /\
  length (firstn (N.to_nat n) out) = N.to_nat n /\
  ~ In x00 (firstn (N.to_nat n) out) /\
  (bufsiz < N.of_nat (length out) -> n = bufsiz).
Proof.
  intros HP out n. split; [|split; [|split]].
  - exact (build_override_eq PATH_MAX real_path override (Some dst) bufsiz HP).
  - rewrite length_firstn. lia.
  - apply firstn_nul_free, c_str_nul_free.
  - lia.
Qed.

(** C4 (amended): with a null destination [build_override] writes nothing
    and returns min(length of the synthesized path, capacity), which is 0
    only for a capacity of 0 or an empty synthesized path. *)
Theorem build_override_null_buffer (real_path override : list byte)
    (bufsiz : N) :
  PATH_MAX <= 2 ^ 63 ->
  let out_len := strlen (synthesized PATH_MAX real_path override) in
  build_override PATH_MAX real_path override None bufsiz
  = (Z.of_N (N.min out_len bufsiz), None) /\
  (Z.of_N (N.min out_len bufsiz) = 0%Z <-> bufsiz = 0 \/ out_len = 0).
Proof.
  intros HP out_len. split.
  - exact (build_override_eq PATH_MAX real_path override None bufsiz HP).
  - lia.
Qed.

End SynthesisClaims.

(** With PATH_MAX = 4096 and an override of 4096 bytes the synthesized path
    has 4095 bytes, the joined string 4105. *)
Lemma joins_every_path_counterexample : ~ joins_every_path 4096.
Proof.
  intros H.
  assert (Hb : ~ In slash (lit "realprog")) by absent.
  assert (Ho : c_str Demo.long_override <> [])
    by (vm_compute; discriminate).
  pose proof (H (lit "/usr/bin/realprog") Demo.long_override
                (Some (lit "/usr/bin")) (lit "realprog") eq_refl Hb Ho) as E.
  apply (f_equal (@length byte)) in E.
  vm_compute in E. discriminate E.
Qed.

Lemma build_override_copies_witness :
  build_override 4096 (lit "/usr/bin/realprog") (lit "fakeprog")
    (Some (repeat x2e 20)) 8
  = (8%Z, Some (lit "/usr/bin" ++ repeat x2e 12)).
Proof.
  refine (proj1 (build_override_copies 4096 (lit "/usr/bin/realprog")
                   (lit "fakeprog") (repeat x2e 20) 8 _)).
  vm_compute. discriminate.
Defined.

(** With a null destination and a capacity of 100 the result is 17. *)
Lemma null_buffer_returns_zero_counterexample :
  ~ null_buffer_returns_zero 4096.
Proof.
  intros H.
  specialize (H (lit "/usr/bin/realprog") (lit "fakeprog") 100).
  vm_compute in H. discriminate H.
Qed.

Lemma build_override_null_buffer_witness :
  build_override 4096 (lit "/usr/bin/realprog") (lit "fakeprog") None 100
  = (17%Z, None).
Proof.
  refine (proj1 (build_override_null_buffer 4096 (lit "/usr/bin/realprog")
                   (lit "fakeprog") 100 _)).
  vm_compute. discriminate.
Defined.

Example readlink_null_buffer :
  observable _ (Demo.readlink (Some (lit "/proc/self/exe")) None 100
                  Demo.with_override)
  = (17%Z, None, 0%Z, Demo.links).
Proof. vm_compute. reflexivity. Qed.

(** ** Path synthesis: what the result depends on *)

Section SynthesisStrings.

Variable PATH_MAX : N.

Lemma formatted_joined (dir : option (list byte)) (base override : list byte) :
  ~ In x00 (whole dir base) -> ~ In slash base -> short_dir dir ->
  formatted (whole dir base) override = joined dir (c_str override).
Proof.
  intros Hn Hb Hd. unfold formatted.
  rewrite (strrchr_whole dir base Hn Hb).
  destruct dir as [d|]; simpl; [|reflexivity].
  specialize (Hd d eq_refl).
  destruct (N.eqb_spec (N.of_nat (length d)) 0) as [E|E].
  - destruct d; [reflexivity|simpl in E; lia].
  - unfold fmt_prec_s. rewrite to_int_small by exact Hd.
    destruct (Z.ltb_spec (Z.of_N (N.of_nat (length d))) 0); [lia|].
    simpl in Hn. rewrite (c_str_id _ Hn).
    replace (Z.to_nat (Z.of_N (N.of_nat (length d)))) with (length d) by lia.
    rewrite firstn_app, firstn_all, Nat.sub_diag, firstn_0, app_nil_r.
    reflexivity.
Qed.

Lemma formatted_of_string (real_path override : list byte)
    (dir : option (list byte)) (base : list byte) :
  c_str real_path = whole dir base -> ~ In slash base -> short_dir dir ->
  formatted real_path override = joined dir (c_str override).
Proof.
  intros HR Hb Hd.
  rewrite formatted_reads_strings, HR, formatted_joined, c_str_idem;
    try assumption; [reflexivity|].
  rewrite <- HR. apply c_str_nul_free.
Qed.

Lemma synthesized_string (real_path override : list byte)
    (dir : option (list byte)) (base : list byte) :
  c_str real_path = whole dir base -> ~ In slash base -> short_dir dir ->
  c_str (synthesized PATH_MAX real_path override)
  = firstn (N.to_nat (PATH_MAX - 1)) (joined dir (c_str override)).
Proof.
  intros HR Hb Hd.
  rewrite synthesized_c_str, (formatted_of_string _ _ dir base); auto.
Qed.

Lemma synthesized_reads_strings (real_path override : list byte) :
  synthesized PATH_MAX real_path override
  = synthesized PATH_MAX (c_str real_path) (c_str override).
Proof.
  rewrite !synthesized_snprintf, formatted_reads_strings. reflexivity.
Qed.

Lemma build_override_reads_strings (real_path override : list byte)
    (buf : option (list byte)) (bufsiz : N) :
  build_override PATH_MAX real_path override buf bufsiz
  = build_override PATH_MAX (c_str real_path) (c_str override) buf bufsiz.
Proof.
  unfold build_override. rewrite synthesized_reads_strings. reflexivity.
Qed.

(** C2 (amended): take the joined string to be the directory of the real
    path, a separator and the override, or the override alone for a real
    path that has no separator (a root directory is the empty [dir], which
    gives "/" followed by the override).  Whenever the joined string is at
    most INT_MAX bytes long, the synthesized path is the joined string cut
    to its first PATH_MAX - 1 bytes: the joined string itself when that is
    shorter than PATH_MAX, and exactly PATH_MAX - 1 bytes of it otherwise. *)
Theorem synthesized_joins (real_path override : list byte)
    (dir : option (list byte)) (base : list byte) :
  c_str real_path = whole dir base -> ~ In slash base ->
  (Z.of_nat (length (joined dir (c_str override))) <= INT_MAX)%Z ->
  c_str (synthesized PATH_MAX real_path override)
  = firstn (N.to_nat (PATH_MAX - 1)) (joined dir (c_str override)) /\
  (N.of_nat (length (joined dir (c_str override))) < PATH_MAX ->
   c_str (synthesized PATH_MAX real_path override)
   = joined dir (c_str override)) /\
  (PATH_MAX <= N.of_nat (length (joined dir (c_str override))) ->
   N.of_nat (length (c_str (synthesized PATH_MAX real_path override)))
   = PATH_MAX - 1).
Proof.
  intros HR Hb Hlen. unfold INT_MAX in Hlen.
  assert (S : short_dir dir).
  { intros d ->. simpl in Hlen. rewrite length_app in Hlen.
    change (2 ^ 31) with (Z.to_N (2 ^ 31)). lia. }
  rewrite (synthesized_string real_path override dir base HR Hb S).
  split; [reflexivity|split].
  - intros Hfit. apply firstn_all2. lia.
  - intros Hcut. rewrite length_firstn. lia.
Qed.

(** X3: the last component of the real path has no part in the result: two real
    paths in the same directory give the same call of [build_override]. *)
Theorem build_override_ignores_basename (real_path real_path' override : list byte)
    (dir : list byte) (base base' : list byte)
    (buf : option (list byte)) (bufsiz : N) :
  c_str real_path = whole (Some dir) base ->
  c_str real_path' = whole (Some dir) base' ->
  ~ In slash base -> ~ In slash base' ->
  N.of_nat (length dir) < 2 ^ 31 ->
  build_override PATH_MAX real_path override buf bufsiz
  = build_override PATH_MAX real_path' override buf bufsiz.
Proof.
  intros HR HR' Hb Hb' Hd.
  assert (S : short_dir (Some dir)) by (intros d [= <-]; exact Hd).
  unfold build_override. rewrite !synthesized_snprintf.
  rewrite (formatted_of_string real_path override (Some dir) base HR Hb S).
  rewrite (formatted_of_string real_path' override (Some dir) base' HR' Hb' S).
  reflexivity.
Qed.

(** X4: the copy stays inside the caller's capacity and inside PATH_MAX - 1: the
    result is at most both, a destination of at least [bufsiz] bytes keeps
    its length, and a capacity of 0 leaves it untouched with result 0. *)
Theorem build_override_within_capacity (real_path override dst : list byte)
    (bufsiz : N) :
  PATH_MAX <= 2 ^ 63 ->
  bufsiz <= N.of_nat (length dst) ->
  let r := build_override PATH_MAX real_path override (Some dst) bufsiz in
  (0 <= fst r <= Z.of_N (N.min bufsiz (PATH_MAX - 1)))%Z /\
  option_map (@length byte) (snd r) = Some (length dst) /\
  (bufsiz = 0 -> r = (0%Z, Some dst)).
Proof.
  intros HP Hcap r. subst r.
  rewrite build_override_eq by exact HP. simpl.
  pose proof (strlen_synthesized PATH_MAX real_path override) as Hlen.
  unfold strlen in Hlen.
  set (out := c_str (synthesized PATH_MAX real_path override)) in *.
  split; [lia|split].
  - f_equal. rewrite length_app, length_firstn, length_skipn. lia.
  - intros ->. replace (N.min (N.of_nat (length out)) 0) with 0 by lia.
    reflexivity.
Qed.

End SynthesisStrings.

Lemma synthesized_joins_witness :
  (c_str (synthesized 4096 (lit "/usr/bin/realprog") (lit "fakeprog"))
   = lit "/usr/bin/fakeprog" /\
   length (lit "/usr/bin/fakeprog") = 17%nat) /\
  c_str (synthesized 4096 (lit "/usr/bin/realprog") Demo.long_override)
  = lit "/usr/bin/" ++ repeat x61 4086.
Proof.
  split; [split; [|reflexivity]|].
  - refine (proj1 (proj2 (synthesized_joins 4096 (lit "/usr/bin/realprog")
                            (lit "fakeprog") (Some (lit "/usr/bin"))
                            (lit "realprog") eq_refl _ _)) _).
    + absent.
    + vm_compute. discriminate.
    + vm_compute. reflexivity.
  - refine (eq_trans
      (proj1 (synthesized_joins 4096 (lit "/usr/bin/realprog")
                Demo.long_override (Some (lit "/usr/bin")) (lit "realprog")
                eq_refl _ _)) _).
    + absent.
    + vm_compute. discriminate.
    + vm_compute. reflexivity.
Defined.

Lemma build_override_ignores_basename_witness :
  build_override 4096 (lit "/usr/bin/realprog") (lit "fakeprog")
    (Some (repeat x2e 20)) 20
  = build_override 4096 (lit "/usr/bin/env") (lit "fakeprog")
      (Some (repeat x2e 20)) 20.
Proof.
  apply (build_override_ignores_basename 4096 (lit "/usr/bin/realprog")
           (lit "/usr/bin/env") (lit "fakeprog") (lit "/usr/bin")
           (lit "realprog") (lit "env")).
  - reflexivity.
  - reflexivity.
  - absent.
  - absent.
  - vm_compute. reflexivity.
Defined.

Lemma build_override_within_capacity_witness :
  build_override 4096 (lit "/usr/bin/realprog") (lit "fakeprog")
    (Some (repeat x2e 20)) 0
  = (0%Z, Some (repeat x2e 20)).
Proof.
  refine (proj2 (proj2 (build_override_within_capacity 4096
                          (lit "/usr/bin/realprog") (lit "fakeprog")
                          (repeat x2e 20) 0 _ _)) eq_refl).
  - vm_compute. discriminate.
  - vm_compute. discriminate.
Defined.

(** ** The wrappers *)

Lemma lookups_app (name : string) (t u : list event) :
  lookups name (t ++ u) = lookups name t ++ lookups name u.
Proof.
  induction t as [|e t IH]; simpl; [reflexivity|].
  destruct e; simpl; try exact IH.
  match goal with
  | |- context [String.eqb ?k name] => destruct (String.eqb k name)
  end; rewrite IH; reflexivity.
Qed.

Lemma callees_app (name : string) (t u : list event) :
  callees name (t ++ u) = callees name t ++ callees name u.
Proof.
  induction t as [|e t IH]; simpl; [reflexivity|].
  destruct e; simpl; try exact IH.
  - destruct (String.eqb name "readlink"); rewrite IH; reflexivity.
  - destruct (String.eqb name "readlinkat"); rewrite IH; reflexivity.
Qed.

Lemma empty_string_deref (ov : list byte) :
  c_str ov = [] -> Byte.eqb (hd x00 ov) x00 = true.
Proof.
  destruct ov as [|b ov]; simpl; [reflexivity|].
  destruct (Byte.eqb b x00); [reflexivity|discriminate].
Qed.

Section Wrappers.

Variable World : Type.
Variable PATH_MAX : N.
Variables EINVAL ENOSYS EOVERFLOW : Z.
Variable dlsym_next : World -> string -> option addr.
Variable code_readlink : addr -> readlink_t World.
Variable code_readlinkat : addr -> readlinkat_t World.
Variable junk : nat -> byte.

Local Abbreviation call_real_readlink :=
  (call_real_readlink World ENOSYS dlsym_next code_readlink).
Local Abbreviation call_real_readlinkat :=
  (call_real_readlinkat World ENOSYS dlsym_next code_readlinkat).
Local Abbreviation readlink :=
  (readlink World PATH_MAX EINVAL ENOSYS EOVERFLOW dlsym_next code_readlink
     junk).
Local Abbreviation readlinkat :=
  (readlinkat World PATH_MAX EINVAL ENOSYS EOVERFLOW dlsym_next code_readlinkat
     junk).
Local Abbreviation readlink_built :=
  (readlink_built World PATH_MAX ENOSYS EOVERFLOW dlsym_next code_readlink
     junk).
Local Abbreviation readlinkat_built :=
  (readlinkat_built World PATH_MAX ENOSYS EOVERFLOW dlsym_next code_readlinkat
     junk).
Local Abbreviation finish_override :=
  (finish_override World PATH_MAX EOVERFLOW).
Local Abbreviation log := (log World).
Local Abbreviation set_errno := (set_errno World).
Local Abbreviation set_real_readlink_fn := (set_real_readlink_fn World).
Local Abbreviation set_real_readlinkat_fn := (set_real_readlinkat_fn World).
Local Abbreviation observable := (observable World).
Local Abbreviation direct := (direct World).
Local Abbreviation resolved := (resolved World dlsym_next).
Local Abbreviation takes_override := (takes_override World).
Local Abbreviation scratch := (Some (uninitialized junk PATH_MAX)).
Local Abbreviation override_outcome :=
  (override_outcome World PATH_MAX EOVERFLOW junk).
Local Abbreviation step :=
  (step World PATH_MAX EINVAL ENOSYS EOVERFLOW dlsym_next code_readlink
     code_readlinkat junk).
Local Abbreviation reachable :=
  (reachable World PATH_MAX EINVAL ENOSYS EOVERFLOW dlsym_next code_readlink
     code_readlinkat junk).

(** The three ways a call of the original can go. *)
Lemma call_real_readlink_cached path buf bufsiz st f :
  real_readlink_fn st = Some f ->
  call_real_readlink path buf bufsiz st
  = direct (code_readlink f path buf bufsiz (world st) (errno st)) buf
      (log (EvReadlink f path buf bufsiz) st).
Proof.
  intros E. unfold call_real_readlink. rewrite E. simpl.
  rewrite E. reflexivity.
Qed.

Lemma call_real_readlink_found path buf bufsiz st f :
  real_readlink_fn st = None -> dlsym_next (world st) "readlink" = Some f ->
  call_real_readlink path buf bufsiz st
  = direct (code_readlink f path buf bufsiz (world st) (errno st)) buf
      (log (EvReadlink f path buf bufsiz)
         (set_real_readlink_fn (Some f)
            (log (EvDlsym "readlink" (Some f)) st))).
Proof.
  intros E D. unfold call_real_readlink. rewrite E. simpl.
  rewrite D. reflexivity.
Qed.

Lemma call_real_readlink_missing path buf bufsiz st :
  real_readlink_fn st = None -> dlsym_next (world st) "readlink" = None ->
  call_real_readlink path buf bufsiz st
  = ((-1)%Z, buf,
     set_errno ENOSYS
       (set_real_readlink_fn None (log (EvDlsym "readlink" None) st))).
Proof.
  intros E D. unfold call_real_readlink. rewrite E. simpl.
  rewrite D. reflexivity.
Qed.

Lemma call_real_readlinkat_cached dirfd path buf bufsiz st f :
  real_readlinkat_fn st = Some f ->
  call_real_readlinkat dirfd path buf bufsiz st
  = direct
      (code_readlinkat f dirfd path buf bufsiz (world st) (errno st)) buf
      (log (EvReadlinkat f dirfd path buf bufsiz) st).
Proof.
  intros E. unfold call_real_readlinkat. rewrite E. simpl.
  rewrite E. reflexivity.
Qed.

Lemma call_real_readlinkat_found dirfd path buf bufsiz st f :
  real_readlinkat_fn st = None ->
  dlsym_next (world st) "readlinkat" = Some f ->
  call_real_readlinkat dirfd path buf bufsiz st
  = direct
      (code_readlinkat f dirfd path buf bufsiz (world st) (errno st)) buf
      (log (EvReadlinkat f dirfd path buf bufsiz)
         (set_real_readlinkat_fn (Some f)
            (log (EvDlsym "readlinkat" (Some f)) st))).
Proof.
  intros E D. unfold call_real_readlinkat. rewrite E. simpl.
  rewrite D. reflexivity.
Qed.

Lemma call_real_readlinkat_missing dirfd path buf bufsiz st :
  real_readlinkat_fn st = None ->
  dlsym_next (world st) "readlinkat" = None ->
  call_real_readlinkat dirfd path buf bufsiz st
  = ((-1)%Z, buf,
     set_errno ENOSYS
       (set_real_readlinkat_fn None
          (log (EvDlsym "readlinkat" None) st))).
Proof.
  intros E D. unfold call_real_readlinkat. rewrite E. simpl.
  rewrite D. reflexivity.
Qed.

(** The two branches of a wrapper on a path that is not null. *)
Lemma readlink_fast p buf bufsiz st :
  takes_override (Some p) st = false ->
  readlink (Some p) buf bufsiz st
  = call_real_readlink (Some p) buf bufsiz (log (EvGetenv override_var) st).
Proof.
  unfold takes_override, readlink, getenv. simpl.
  intros E. apply negb_false_iff in E. fold override_var. rewrite E.
  reflexivity.
Qed.

Lemma readlink_override p buf bufsiz st :
  takes_override (Some p) st = true ->
  readlink (Some p) buf bufsiz st
  = let '(n, real_path, st') :=
      call_real_readlink (Some p) scratch (PATH_MAX - 1)
        (log (EvGetenv override_var) st) in
    finish_override n (pointee real_path)
      (pointee (lookup_env override_var (environ st))) buf bufsiz st'.
Proof.
  unfold takes_override, readlink, getenv. simpl.
  intros E. apply negb_true_iff in E. fold override_var. rewrite E.
  reflexivity.
Qed.

Lemma readlinkat_fast dirfd p buf bufsiz st :
  takes_override (Some p) st = false ->
  readlinkat dirfd (Some p) buf bufsiz st
  = call_real_readlinkat dirfd (Some p) buf bufsiz
      (log (EvGetenv override_var) st).
Proof.
  unfold takes_override, readlinkat, getenv. simpl.
  intros E. apply negb_false_iff in E. fold override_var. rewrite E.
  reflexivity.
Qed.

Lemma readlinkat_override dirfd p buf bufsiz st :
  takes_override (Some p) st = true ->
  readlinkat dirfd (Some p) buf bufsiz st
  = let '(n, real_path, st') :=
      call_real_readlinkat dirfd (Some p) scratch (PATH_MAX - 1)
        (log (EvGetenv override_var) st) in
    finish_override n (pointee real_path)
      (pointee (lookup_env override_var (environ st))) buf bufsiz st'.
Proof.
  unfold takes_override, readlinkat, getenv. simpl.
  intros E. apply negb_true_iff in E. fold override_var. rewrite E.
  reflexivity.
Qed.

(** Line 68 in the words of the specification. *)
Lemma takes_override_false p st :
  c_str p <> proc_self_exe \/
  lookup_env override_var (environ st) = None \/
  (exists ov, lookup_env override_var (environ st) = Some ov /\
              c_str ov = []) ->
  takes_override (Some p) st = false.
Proof.
  unfold takes_override. intros H. apply negb_false_iff.
  destruct H as [H|[H|[ov [H E]]]].
  - destruct (Z.eqb_spec (strcmp (pointee (Some p)) proc_self_exe) 0)
      as [C|C].
    + exfalso. apply H. apply strcmp_zero in C. simpl in C.
      rewrite C. reflexivity.
    + simpl. apply orb_true_r.
  - rewrite H. reflexivity.
  - rewrite H. simpl. unfold deref. simpl.
    rewrite (empty_string_deref ov E). reflexivity.
Qed.



Lemma finish_override_negative n real_path override buf bufsiz st :
  (n < 0)%Z ->
  finish_override n real_path override buf bufsiz st = (n, buf, st).
Proof.
  intros H. unfold finish_override.
  destruct (Z.ltb_spec n 0); [reflexivity|lia].
Qed.

Lemma finish_override_success n real_path override buf bufsiz st :
  (0 <= n)%Z ->
  finish_override n real_path override buf bufsiz st
  = (fst (build_override PATH_MAX (store real_path (Z.to_nat n) x00) override
            buf bufsiz),
     snd (build_override PATH_MAX (store real_path (Z.to_nat n) x00) override
            buf bufsiz),
     set_errno
       (synthesized_errno EOVERFLOW (store real_path (Z.to_nat n) x00)
          override (errno st))
       (log (EvBuildOverride (store real_path (Z.to_nat n) x00) override) st)).
Proof.
  intros H. unfold finish_override.
  destruct (Z.ltb_spec n 0); [lia|].
  destruct (build_override _ _ _ _ _). reflexivity.
Qed.

(** Synthesis leaves the pointers and the world alone and makes no call that
    leaves the library. *)
Lemma finish_override_keeps n real_path override buf bufsiz st :
  let st' := snd (finish_override n real_path override buf bufsiz st) in
  real_readlink_fn st' = real_readlink_fn st /\
  real_readlinkat_fn st' = real_readlinkat_fn st /\
  world st' = world st /\
  environ st' = environ st /\
  (forall name, lookups name (trace st') = lookups name (trace st)) /\
  (forall name, callees name (trace st') = callees name (trace st)).
Proof.
  destruct (Z.ltb_spec n 0) as [H|H].
  - rewrite finish_override_negative by exact H. simpl. tauto.
  - rewrite finish_override_success by exact H. simpl.
    repeat split; intros name.
    + rewrite lookups_app, app_nil_r. reflexivity.
    + rewrite callees_app, app_nil_r. reflexivity.
Qed.

Lemma call_real_readlink_effect path buf bufsiz st :
  let st' := snd (call_real_readlink path buf bufsiz st) in
  resolution_step "readlink" (real_readlink_fn st) (trace st)
    (real_readlink_fn st') (trace st') /\
  real_readlinkat_fn st' = real_readlinkat_fn st /\
  lookups "readlinkat" (trace st') = lookups "readlinkat" (trace st) /\
  callees "readlinkat" (trace st') = callees "readlinkat" (trace st) /\
  filter is_synthesis (trace st') = filter is_synthesis (trace st) /\
  filter is_getenv (trace st') = filter is_getenv (trace st).
Proof.
  destruct (real_readlink_fn st) as [f|] eqn:E;
    [|destruct (dlsym_next (world st) "readlink") as [f|] eqn:D].
  - rewrite (call_real_readlink_cached _ _ _ _ f E). unfold resolution_step. simpl.
    rewrite !lookups_app, !callees_app, !filter_app. simpl.
    rewrite !app_nil_r.
    repeat split. right. left. exists f. auto.
  - rewrite (call_real_readlink_found _ _ _ _ f E D). unfold resolution_step. simpl.
    rewrite !lookups_app, !callees_app, !filter_app. simpl.
    rewrite !app_nil_r.
    repeat split. right. right. left. exists f. auto.
  - rewrite (call_real_readlink_missing _ _ _ _ E D). unfold resolution_step. simpl.
    rewrite !lookups_app, !callees_app, !filter_app. simpl.
    rewrite !app_nil_r.
    repeat split. right. right. right. auto.
Qed.

Lemma call_real_readlinkat_effect dirfd path buf bufsiz st :
  let st' := snd (call_real_readlinkat dirfd path buf bufsiz st) in
  resolution_step "readlinkat" (real_readlinkat_fn st) (trace st)
    (real_readlinkat_fn st') (trace st') /\
  real_readlink_fn st' = real_readlink_fn st /\
  lookups "readlink" (trace st') = lookups "readlink" (trace st) /\
  callees "readlink" (trace st') = callees "readlink" (trace st) /\
  filter is_synthesis (trace st') = filter is_synthesis (trace st) /\
  filter is_getenv (trace st') = filter is_getenv (trace st).
Proof.
  destruct (real_readlinkat_fn st) as [f|] eqn:E;
    [|destruct (dlsym_next (world st) "readlinkat") as [f|] eqn:D].
  - rewrite (call_real_readlinkat_cached _ _ _ _ _ f E). unfold resolution_step. simpl.
    rewrite !lookups_app, !callees_app, !filter_app. simpl.
    rewrite !app_nil_r.
    repeat split. right. left. exists f. auto.
  - rewrite (call_real_readlinkat_found _ _ _ _ _ f E D). unfold resolution_step. simpl.
    rewrite !lookups_app, !callees_app, !filter_app. simpl.
    rewrite !app_nil_r.
    repeat split. right. right. left. exists f. auto.
  - rewrite (call_real_readlinkat_missing _ _ _ _ _ E D). unfold resolution_step. simpl.
    rewrite !lookups_app, !callees_app, !filter_app. simpl.
    rewrite !app_nil_r.
    repeat split. right. right. right. auto.
Qed.


(** ** The wrappers: pass-through, failures and the override path *)

(** C1: on a path other than "/proc/self/exe", or with
    OBS_VKCAPTURE_EXE_NAME unset or empty, each wrapper is the call of the
    original through [call_real_readlink] / [call_real_readlinkat] with the
    arguments it was given; where the original resolves to an address, the
    result, the destination, [errno] and the world are those of calling the
    function at that address directly, and that function is entered once,
    with the same arguments. *)
Theorem wrappers_transparent (p : list byte) (buf : option (list byte))
    (bufsiz : N) (dirfd : Z) (st : process World) :
  c_str p <> proc_self_exe \/
  lookup_env override_var (environ st) = None \/
  (exists ov, lookup_env override_var (environ st) = Some ov /\
              c_str ov = []) ->
  let r := readlink (Some p) buf bufsiz st in
  let r' := readlinkat dirfd (Some p) buf bufsiz st in
  (r = call_real_readlink (Some p) buf bufsiz (log (EvGetenv override_var) st)
   /\ forall f, resolved "readlink" (real_readlink_fn st) st = Some f ->
      observable r
      = observable
          (direct (code_readlink f (Some p) buf bufsiz (world st) (errno st))
             buf st)
      /\ filter is_real_call (trace (snd r))
         = filter is_real_call (trace st)
           ++ [EvReadlink f (Some p) buf bufsiz])
  /\
  (r' = call_real_readlinkat dirfd (Some p) buf bufsiz
          (log (EvGetenv override_var) st)
   /\ forall g, resolved "readlinkat" (real_readlinkat_fn st) st = Some g ->
      observable r'
      = observable
          (direct
             (code_readlinkat g dirfd (Some p) buf bufsiz (world st) (errno st))
             buf st)
      /\ filter is_real_call (trace (snd r'))
         = filter is_real_call (trace st)
           ++ [EvReadlinkat g dirfd (Some p) buf bufsiz]).
Proof.
  intros Hfast r r'.
  pose proof (takes_override_false p st Hfast) as T.
  subst r r'. rewrite (readlink_fast _ _ _ _ T).
  rewrite (readlinkat_fast _ _ _ _ _ T).
  unfold resolved.
  split; (split; [reflexivity|]).
  - intros f Hf. destruct (real_readlink_fn st) as [f0|] eqn:E.
    + injection Hf as ->.
      rewrite call_real_readlink_cached with (f := f) by exact E.
      simpl. rewrite !filter_app. simpl. rewrite app_nil_r. auto.
    + rewrite call_real_readlink_found with (f := f) by assumption.
      simpl. rewrite !filter_app. simpl. rewrite !app_nil_r. auto.
  - intros g Hg. destruct (real_readlinkat_fn st) as [g0|] eqn:E.
    + injection Hg as ->.
      rewrite call_real_readlinkat_cached with (f := g) by exact E.
      simpl. rewrite !filter_app. simpl. rewrite app_nil_r. auto.
    + rewrite call_real_readlinkat_found with (f := g) by assumption.
      simpl. rewrite !filter_app. simpl. rewrite !app_nil_r. auto.
Qed.

(** The source as written, and a build that keeps the tests of lines 62
    and 84: on a null path each wrapper returns -1 with [errno] set to
    EINVAL; the destination, the world and the two pointers are as before
    and no call left the library. *)
Theorem null_path_is_EINVAL (buf : option (list byte)) (bufsiz : N)
    (dirfd : Z) (st : process World) :
  let st' :=
    Process (real_readlink_fn st) (real_readlinkat_fn st) EINVAL (environ st)
      (world st) (trace st) in
  readlink None buf bufsiz st = ((-1)%Z, buf, st') /\
  readlinkat dirfd None buf bufsiz st = ((-1)%Z, buf, st').
Proof. split; reflexivity. Qed.

(** C7: on the override path, a negative result of the inner call is the
    result of the wrapper; the process is left as the inner call left it
    ([errno] included), the destination is untouched and no synthesis took
    place. *)
Theorem inner_failure_propagates (p : list byte) (buf : option (list byte))
    (bufsiz : N) (dirfd : Z) (st : process World) :
  takes_override (Some p) st = true ->
  (forall n real_path st',
     call_real_readlink (Some p) scratch (PATH_MAX - 1)
       (log (EvGetenv override_var) st) = (n, real_path, st') ->
     (n < 0)%Z ->
     readlink (Some p) buf bufsiz st = (n, buf, st') /\
     filter is_synthesis (trace st') = filter is_synthesis (trace st)) /\
  (forall n real_path st',
     call_real_readlinkat dirfd (Some p) scratch (PATH_MAX - 1)
       (log (EvGetenv override_var) st) = (n, real_path, st') ->
     (n < 0)%Z ->
     readlinkat dirfd (Some p) buf bufsiz st = (n, buf, st') /\
     filter is_synthesis (trace st') = filter is_synthesis (trace st)).
Proof.
  intros T. split; intros n real_path st' E Hn.
  - rewrite (readlink_override _ _ _ _ T), E.
    split; [apply finish_override_negative, Hn|].
    pose proof (call_real_readlink_effect (Some p) scratch (PATH_MAX - 1)
                  (log (EvGetenv override_var) st)) as H.
    rewrite E in H. simpl in H. destruct H as (_ & _ & _ & _ & H & _).
    rewrite H, filter_app. simpl. apply app_nil_r.
  - rewrite (readlinkat_override _ _ _ _ _ T), E.
    split; [apply finish_override_negative, Hn|].
    pose proof (call_real_readlinkat_effect dirfd (Some p) scratch (PATH_MAX - 1)
                  (log (EvGetenv override_var) st)) as H.
    rewrite E in H. simpl in H. destruct H as (_ & _ & _ & _ & H & _).
    rewrite H, filter_app. simpl. apply app_nil_r.
Qed.

(** C8: when the pointer is null and the lookup finds nothing, the wrapper
    (on either path, for a path that is not null) returns -1 with [errno] set
    to ENOSYS; the destination is untouched, and the only calls that left
    the library are [getenv] and the lookup: no original, and no wrapper, is
    entered. *)
Theorem missing_original_is_ENOSYS (p : list byte)
    (buf : option (list byte)) (bufsiz : N) (dirfd : Z) (st : process World) :
  (resolved "readlink" (real_readlink_fn st) st = None ->
   readlink (Some p) buf bufsiz st
   = ((-1)%Z, buf,
      Process None (real_readlinkat_fn st) ENOSYS (environ st) (world st)
        (trace st ++ [EvGetenv override_var; EvDlsym "readlink" None]))) /\
  (resolved "readlinkat" (real_readlinkat_fn st) st = None ->
   readlinkat dirfd (Some p) buf bufsiz st
   = ((-1)%Z, buf,
      Process (real_readlink_fn st) None ENOSYS (environ st) (world st)
        (trace st ++ [EvGetenv override_var; EvDlsym "readlinkat" None]))).
Proof.
  unfold resolved. split; intros R.
  - destruct (real_readlink_fn st) as [f|] eqn:E; [discriminate R|].
    destruct (takes_override (Some p) st) eqn:T.
    + rewrite (readlink_override _ _ _ _ T).
      rewrite call_real_readlink_missing by assumption.
      rewrite finish_override_negative by lia.
      unfold set_errno, set_real_readlink_fn, set_real_readlinkat_fn, log.
      simpl. rewrite <- app_assoc. reflexivity.
    + rewrite (readlink_fast _ _ _ _ T).
      rewrite call_real_readlink_missing by assumption.
      unfold set_errno, set_real_readlink_fn, set_real_readlinkat_fn, log.
      simpl. rewrite <- app_assoc. reflexivity.
  - destruct (real_readlinkat_fn st) as [f|] eqn:E; [discriminate R|].
    destruct (takes_override (Some p) st) eqn:T.
    + rewrite (readlinkat_override _ _ _ _ _ T).
      rewrite call_real_readlinkat_missing by assumption.
      rewrite finish_override_negative by lia.
      unfold set_errno, set_real_readlink_fn, set_real_readlinkat_fn, log.
      simpl. rewrite <- app_assoc. reflexivity.
    + rewrite (readlinkat_fast _ _ _ _ _ T).
      rewrite call_real_readlinkat_missing by assumption.
      unfold set_errno, set_real_readlink_fn, set_real_readlinkat_fn, log.
      simpl. rewrite <- app_assoc. reflexivity.
Qed.

(** C10 (amended): on the override path, after an inner call that returned
    a result that is not negative, the wrapper returns what [build_override]
    returns for the real target with a NUL stored at that result, whatever
    the target, the override, the destination and the capacity; the value
    returned lies between 0 and the capacity, and the world and the pointers
    are as the inner call left them.  [errno] is as the inner call left it
    when the formatted path is at most INT_MAX bytes long; when it is longer
    [snprintf] fails and [errno] is EOVERFLOW, the wrapper returning the
    count all the same. *)
Theorem override_never_fails (p : list byte) (buf : option (list byte))
    (bufsiz : N) (dirfd : Z) (st : process World) :
  PATH_MAX <= 2 ^ 63 ->
  takes_override (Some p) st = true ->
  let override := pointee (lookup_env override_var (environ st)) in
  let finished n real_path (st' : process World) r :=
    let target := store (pointee real_path) (Z.to_nat n) x00 in
    fst r = build_override PATH_MAX target override buf bufsiz /\
    (0 <= fst (fst r) <= Z.of_N bufsiz)%Z /\
    errno (snd r)
    = (if (INT_MAX <? Z.of_nat (length (formatted target override)))%Z
       then EOVERFLOW else errno st') /\
    world (snd r) = world st' /\
    real_readlink_fn (snd r) = real_readlink_fn st' /\
    real_readlinkat_fn (snd r) = real_readlinkat_fn st' in
  (forall n real_path st',
     call_real_readlink (Some p) scratch (PATH_MAX - 1)
       (log (EvGetenv override_var) st) = (n, real_path, st') ->
     (0 <= n)%Z ->
     finished n real_path st' (readlink (Some p) buf bufsiz st)) /\
  (forall n real_path st',
     call_real_readlinkat dirfd (Some p) scratch (PATH_MAX - 1)
       (log (EvGetenv override_var) st) = (n, real_path, st') ->
     (0 <= n)%Z ->
     finished n real_path st' (readlinkat dirfd (Some p) buf bufsiz st)).
Proof.
  intros HP T override finished.
  assert (F : forall n real_path st', (0 <= n)%Z ->
            finished n real_path st'
              (finish_override n (pointee real_path) override buf bufsiz st')).
  { intros n real_path st' Hn. unfold finished.
    rewrite finish_override_success by exact Hn.
    rewrite synthesized_errno_formatted.
    set (target := store (pointee real_path) (Z.to_nat n) x00).
    pose proof (build_override_eq PATH_MAX target override buf bufsiz HP) as E.
    simpl in E. destruct (build_override PATH_MAX target override buf bufsiz)
      as [ret dst].
    injection E as -> _. simpl. unfold snprintf_errno.
    repeat split; lia. }
  split; intros n real_path st' E Hn.
  - rewrite (readlink_override _ _ _ _ T), E. apply F, Hn.
  - rewrite (readlinkat_override _ _ _ _ _ T), E. apply F, Hn.
Qed.

(** ** Resolution of the originals over the life of the process *)

Lemma resolution_step_same (name : string) (p p' p0 p1 : option addr)
    (t t' t0 t1 : list event) :
  resolution_step name p t p' t' ->
  p0 = p -> lookups name t0 = lookups name t ->
  callees name t0 = callees name t ->
  p1 = p' -> lookups name t1 = lookups name t' ->
  callees name t1 = callees name t' ->
  resolution_step name p0 t0 p1 t1.
Proof.
  unfold resolution_step. intros H -> L0 C0 -> L1 C1.
  rewrite L0, C0, L1, C1. exact H.
Qed.

Lemma resolution_step_idle (name : string) (p p' : option addr)
    (t t' : list event) :
  p' = p -> lookups name t' = lookups name t ->
  callees name t' = callees name t ->
  resolution_step name p t p' t'.
Proof. intros. left. auto. Qed.

Lemma resolved_once_step (name : string) (p p' : option addr)
    (t t' : list event) :
  resolved_once name p t -> resolution_step name p t p' t' ->
  resolved_once name p' t'.
Proof.
  intros [[k L] C] [(-> & L' & C')|[(f & -> & -> & L' & C')|
    [(f & -> & -> & L' & C')|(-> & -> & L' & C')]]];
    unfold resolved_once; rewrite L', C', L.
  - split; [exists k; reflexivity|exact C].
  - split; [exists k; reflexivity|].
    intros a H. apply in_app_or in H. destruct H as [H|[<-|[]]]; auto.
  - split; [exists k; simpl; rewrite app_nil_r; reflexivity|].
    intros a H. apply in_app_or in H. destruct H as [H|[<-|[]]]; auto.
    discriminate (C a H).
  - split; [|exact C]. exists (S k). simpl.
    rewrite !app_nil_r. symmetry. apply (repeat_cons k (@None addr)).
Qed.

Lemma resolution_step_growth (name : string) (p p' : option addr)
    (t t' : list event) :
  resolution_step name p t p' t' ->
  (length (lookups name t') <= S (length (lookups name t)))%nat /\
  (forall f, p = Some f -> p' = Some f /\ lookups name t' = lookups name t).
Proof.
  intros [(-> & L' & C')|[(f & -> & -> & L' & C')|
    [(f & -> & -> & L' & C')|(-> & -> & L' & C')]]];
    rewrite L', ?length_app; simpl; split;
    try lia; try (intros; discriminate); auto.
Qed.

Lemma log_getenv_silent (name v : string) (st : process World) :
  lookups name (trace (log (EvGetenv v) st)) = lookups name (trace st) /\
  callees name (trace (log (EvGetenv v) st)) = callees name (trace st).
Proof.
  simpl. rewrite lookups_app, callees_app. simpl. rewrite !app_nil_r. auto.
Qed.

Lemma readlink_resolution path buf bufsiz st :
  let st' := snd (readlink path buf bufsiz st) in
  resolution_step "readlink" (real_readlink_fn st) (trace st)
    (real_readlink_fn st') (trace st') /\
  resolution_step "readlinkat" (real_readlinkat_fn st) (trace st)
    (real_readlinkat_fn st') (trace st').
Proof.
  destruct path as [p|];
    [|split; apply resolution_step_idle; reflexivity].
  destruct (log_getenv_silent "readlink" override_var st) as [L1 C1].
  destruct (log_getenv_silent "readlinkat" override_var st) as [L2 C2].
  destruct (takes_override (Some p) st) eqn:T.
  - rewrite (readlink_override _ _ _ _ T).
    pose proof (call_real_readlink_effect (Some p) scratch (PATH_MAX - 1)
                  (log (EvGetenv override_var) st)) as H.
    destruct (call_real_readlink (Some p) scratch (PATH_MAX - 1)
                (log (EvGetenv override_var) st)) as [[n rp] st1].
    simpl in H. destruct H as (R & P & L & C & _).
    destruct (finish_override_keeps n (pointee rp)
                (pointee (lookup_env override_var (environ st))) buf bufsiz
                st1) as (K1 & K2 & _ & _ & KL & KC).
    split.
    + eapply resolution_step_same; [exact R|..]; auto.
    + apply resolution_step_idle.
      * rewrite K2, P. reflexivity.
      * rewrite KL, L, <- L2. reflexivity.
      * rewrite KC, C, <- C2. reflexivity.
  - rewrite (readlink_fast _ _ _ _ T).
    pose proof (call_real_readlink_effect (Some p) buf bufsiz
                  (log (EvGetenv override_var) st)) as H.
    simpl in H. destruct H as (R & P & L & C & _).
    split.
    + eapply resolution_step_same; [exact R|..]; auto.
    + apply resolution_step_idle.
      * rewrite P. reflexivity.
      * rewrite L, <- L2. reflexivity.
      * rewrite C, <- C2. reflexivity.
Qed.

Lemma readlinkat_resolution dirfd path buf bufsiz st :
  let st' := snd (readlinkat dirfd path buf bufsiz st) in
  resolution_step "readlink" (real_readlink_fn st) (trace st)
    (real_readlink_fn st') (trace st') /\
  resolution_step "readlinkat" (real_readlinkat_fn st) (trace st)
    (real_readlinkat_fn st') (trace st').
Proof.
  destruct path as [p|];
    [|split; apply resolution_step_idle; reflexivity].
  destruct (log_getenv_silent "readlink" override_var st) as [L1 C1].
  destruct (log_getenv_silent "readlinkat" override_var st) as [L2 C2].
  destruct (takes_override (Some p) st) eqn:T.
  - rewrite (readlinkat_override _ _ _ _ _ T).
    pose proof (call_real_readlinkat_effect dirfd (Some p) scratch (PATH_MAX - 1)
                  (log (EvGetenv override_var) st)) as H.
    destruct (call_real_readlinkat dirfd (Some p) scratch (PATH_MAX - 1)
                (log (EvGetenv override_var) st)) as [[n rp] st1].
    simpl in H. destruct H as (R & P & L & C & _).
    destruct (finish_override_keeps n (pointee rp)
                (pointee (lookup_env override_var (environ st))) buf bufsiz
                st1) as (K1 & K2 & _ & _ & KL & KC).
    split.
    + apply resolution_step_idle.
      * rewrite K1, P. reflexivity.
      * rewrite KL, L, <- L1. reflexivity.
      * rewrite KC, C, <- C1. reflexivity.
    + eapply resolution_step_same; [exact R|..]; auto.
  - rewrite (readlinkat_fast _ _ _ _ _ T).
    pose proof (call_real_readlinkat_effect dirfd (Some p) buf bufsiz
                  (log (EvGetenv override_var) st)) as H.
    simpl in H. destruct H as (R & P & L & C & _).
    split.
    + apply resolution_step_idle.
      * rewrite P. reflexivity.
      * rewrite L, <- L1. reflexivity.
      * rewrite C, <- C1. reflexivity.
    + eapply resolution_step_same; [exact R|..]; auto.
Qed.

(** An optimising build differs from the source as written on a null path
    only: there it goes on to [getenv] and, short of the override path, to
    the original. *)
Lemma readlink_built_some p buf bufsiz st :
  readlink_built (Some p) buf bufsiz st = readlink (Some p) buf bufsiz st.
Proof. reflexivity. Qed.

Lemma readlinkat_built_some dirfd p buf bufsiz st :
  readlinkat_built dirfd (Some p) buf bufsiz st
  = readlinkat dirfd (Some p) buf bufsiz st.
Proof. reflexivity. Qed.

Lemma strcmp_null_path :
  negb (strcmp (pointee None) proc_self_exe =? 0)%Z = true.
Proof. reflexivity. Qed.

Lemma readlink_built_null buf bufsiz st :
  readlink_built None buf bufsiz st
  = call_real_readlink None buf bufsiz (log (EvGetenv override_var) st).
Proof.
  unfold readlink_built, getenv. fold override_var.
  rewrite strcmp_null_path, orb_true_r. reflexivity.
Qed.

Lemma readlinkat_built_null dirfd buf bufsiz st :
  readlinkat_built dirfd None buf bufsiz st
  = call_real_readlinkat dirfd None buf bufsiz
      (log (EvGetenv override_var) st).
Proof.
  unfold readlinkat_built, getenv. fold override_var.
  rewrite strcmp_null_path, orb_true_r. reflexivity.
Qed.

Lemma readlink_built_resolution path buf bufsiz st :
  let st' := snd (readlink_built path buf bufsiz st) in
  resolution_step "readlink" (real_readlink_fn st) (trace st)
    (real_readlink_fn st') (trace st') /\
  resolution_step "readlinkat" (real_readlinkat_fn st) (trace st)
    (real_readlinkat_fn st') (trace st').
Proof.
  destruct path as [p|];
    [rewrite readlink_built_some; apply readlink_resolution|].
  destruct (log_getenv_silent "readlink" override_var st) as [L1 C1].
  destruct (log_getenv_silent "readlinkat" override_var st) as [L2 C2].
  rewrite readlink_built_null.
  pose proof (call_real_readlink_effect None buf bufsiz
                (log (EvGetenv override_var) st)) as H.
  simpl in H. destruct H as (R & P & L & C & _).
  split.
  - eapply resolution_step_same; [exact R|..]; auto.
  - apply resolution_step_idle.
    + rewrite P. reflexivity.
    + rewrite L, <- L2. reflexivity.
    + rewrite C, <- C2. reflexivity.
Qed.

Lemma readlinkat_built_resolution dirfd path buf bufsiz st :
  let st' := snd (readlinkat_built dirfd path buf bufsiz st) in
  resolution_step "readlink" (real_readlink_fn st) (trace st)
    (real_readlink_fn st') (trace st') /\
  resolution_step "readlinkat" (real_readlinkat_fn st) (trace st)
    (real_readlinkat_fn st') (trace st').
Proof.
  destruct path as [p|];
    [rewrite readlinkat_built_some; apply readlinkat_resolution|].
  destruct (log_getenv_silent "readlink" override_var st) as [L1 C1].
  destruct (log_getenv_silent "readlinkat" override_var st) as [L2 C2].
  rewrite readlinkat_built_null.
  pose proof (call_real_readlinkat_effect dirfd None buf bufsiz
                (log (EvGetenv override_var) st)) as H.
  simpl in H. destruct H as (R & P & L & C & _).
  split.
  - apply resolution_step_idle.
    + rewrite P. reflexivity.
    + rewrite L, <- L1. reflexivity.
    + rewrite C, <- C1. reflexivity.
  - eapply resolution_step_same; [exact R|..]; auto.
Qed.

Lemma step_resolution st st' :
  step st st' ->
  resolution_step "readlink" (real_readlink_fn st) (trace st)
    (real_readlink_fn st') (trace st') /\
  resolution_step "readlinkat" (real_readlinkat_fn st) (trace st)
    (real_readlinkat_fn st') (trace st').
Proof.
  intros [path buf bufsiz s|dirfd path buf bufsiz s|path buf bufsiz s
          |dirfd path buf bufsiz s|s e env w].
  - apply readlink_resolution.
  - apply readlinkat_resolution.
  - apply readlink_built_resolution.
  - apply readlinkat_built_resolution.
  - split; apply resolution_step_idle; reflexivity.
Qed.

Lemma reachable_resolved_once st :
  reachable st ->
  resolved_once "readlink" (real_readlink_fn st) (trace st) /\
  resolved_once "readlinkat" (real_readlinkat_fn st) (trace st).
Proof.
  induction 1 as [st (E1 & E2 & E3)|st st' _ [IH1 IH2] S].
  - rewrite E1, E2, E3.
    split; (split; [exists O; reflexivity|intros a []]).
  - destruct (step_resolution st st' S) as [R1 R2].
    split; eapply resolved_once_step; eauto.
Qed.


(** ** The calls a wrapper makes, and what the override path returns *)

Lemma call_real_readlink_events path buf bufsiz st :
  let st' := snd (call_real_readlink path buf bufsiz st) in
  trace st'
  = trace st
    ++ resolution_events "readlink" (real_readlink_fn st)
         (dlsym_next (world st) "readlink")
         (fun f => EvReadlink f path buf bufsiz) /\
  real_readlink_fn st' = resolved "readlink" (real_readlink_fn st) st /\
  real_readlinkat_fn st' = real_readlinkat_fn st.
Proof.
  unfold resolved.
  destruct (real_readlink_fn st) as [f|] eqn:E;
    [|destruct (dlsym_next (world st) "readlink") as [f|] eqn:D].
  - rewrite (call_real_readlink_cached _ _ _ _ f E). simpl. auto.
  - rewrite (call_real_readlink_found _ _ _ _ f E D). simpl.
    rewrite <- app_assoc. auto.
  - rewrite (call_real_readlink_missing _ _ _ _ E D). simpl. auto.
Qed.

Lemma call_real_readlinkat_events dirfd path buf bufsiz st :
  let st' := snd (call_real_readlinkat dirfd path buf bufsiz st) in
  trace st'
  = trace st
    ++ resolution_events "readlinkat" (real_readlinkat_fn st)
         (dlsym_next (world st) "readlinkat")
         (fun f => EvReadlinkat f dirfd path buf bufsiz) /\
  real_readlinkat_fn st' = resolved "readlinkat" (real_readlinkat_fn st) st /\
  real_readlink_fn st' = real_readlink_fn st.
Proof.
  unfold resolved.
  destruct (real_readlinkat_fn st) as [f|] eqn:E;
    [|destruct (dlsym_next (world st) "readlinkat") as [f|] eqn:D].
  - rewrite (call_real_readlinkat_cached _ _ _ _ _ f E). simpl. auto.
  - rewrite (call_real_readlinkat_found _ _ _ _ _ f E D). simpl.
    rewrite <- app_assoc. auto.
  - rewrite (call_real_readlinkat_missing _ _ _ _ _ E D). simpl. auto.
Qed.

Lemma finish_override_events n real_path override buf bufsiz st :
  let st' := snd (finish_override n real_path override buf bufsiz st) in
  exists fin,
    trace st' = trace st ++ fin /\
    Forall (fun e => is_synthesis e = true) fin /\
    real_readlink_fn st' = real_readlink_fn st /\
    real_readlinkat_fn st' = real_readlinkat_fn st.
Proof.
  destruct (Z.ltb_spec n 0) as [H|H].
  - rewrite finish_override_negative by exact H. exists []. simpl.
    rewrite app_nil_r. auto.
  - rewrite finish_override_success by exact H. simpl.
    eexists. split; [reflexivity|]. repeat constructor.
Qed.

(** The calls of one [readlink] on a path that is not null, in order:
    [getenv], the resolution with the arguments of the branch taken, and on
    the override path possibly the synthesis. *)
Lemma readlink_events p buf bufsiz st :
  let st' := snd (readlink (Some p) buf bufsiz st) in
  exists fin,
    trace st'
    = trace st
      ++ EvGetenv override_var
         :: resolution_events "readlink" (real_readlink_fn st)
              (dlsym_next (world st) "readlink")
              (fun f =>
                 if takes_override (Some p) st
                 then EvReadlink f (Some p) scratch (PATH_MAX - 1)
                 else EvReadlink f (Some p) buf bufsiz)
         ++ fin /\
    Forall (fun e => is_synthesis e = true) fin /\
    real_readlink_fn st' = resolved "readlink" (real_readlink_fn st) st /\
    real_readlinkat_fn st' = real_readlinkat_fn st.
Proof.
  destruct (takes_override (Some p) st) eqn:T.
  - rewrite (readlink_override _ _ _ _ T).
    pose proof (call_real_readlink_events (Some p) scratch (PATH_MAX - 1)
                  (log (EvGetenv override_var) st)) as H.
    destruct (call_real_readlink (Some p) scratch (PATH_MAX - 1)
                (log (EvGetenv override_var) st)) as [[n rp] st1].
    simpl in H. destruct H as (Ht & H1 & H2).
    destruct (finish_override_events n (pointee rp)
                (pointee (lookup_env override_var (environ st))) buf bufsiz
                st1) as (fin & Hf & Hs & K1 & K2).
    exists fin. rewrite Hf, Ht, K1, K2, H1, H2.
    rewrite <- !app_assoc. simpl. auto.
  - rewrite (readlink_fast _ _ _ _ T).
    pose proof (call_real_readlink_events (Some p) buf bufsiz
                  (log (EvGetenv override_var) st)) as H.
    simpl in H. destruct H as (Ht & H1 & H2).
    exists []. rewrite Ht, H1, H2, app_nil_r, <- app_assoc. simpl. auto.
Qed.

Lemma readlinkat_events dirfd p buf bufsiz st :
  let st' := snd (readlinkat dirfd (Some p) buf bufsiz st) in
  exists fin,
    trace st'
    = trace st
      ++ EvGetenv override_var
         :: resolution_events "readlinkat" (real_readlinkat_fn st)
              (dlsym_next (world st) "readlinkat")
              (fun f =>
                 if takes_override (Some p) st
                 then EvReadlinkat f dirfd (Some p) scratch (PATH_MAX - 1)
                 else EvReadlinkat f dirfd (Some p) buf bufsiz)
         ++ fin /\
    Forall (fun e => is_synthesis e = true) fin /\
    real_readlinkat_fn st' = resolved "readlinkat" (real_readlinkat_fn st) st /\
    real_readlink_fn st' = real_readlink_fn st.
Proof.
  destruct (takes_override (Some p) st) eqn:T.
  - rewrite (readlinkat_override _ _ _ _ _ T).
    pose proof (call_real_readlinkat_events dirfd (Some p) scratch
                  (PATH_MAX - 1) (log (EvGetenv override_var) st)) as H.
    destruct (call_real_readlinkat dirfd (Some p) scratch (PATH_MAX - 1)
                (log (EvGetenv override_var) st)) as [[n rp] st1].
    simpl in H. destruct H as (Ht & H1 & H2).
    destruct (finish_override_events n (pointee rp)
                (pointee (lookup_env override_var (environ st))) buf bufsiz
                st1) as (fin & Hf & Hs & K1 & K2).
    exists fin. rewrite Hf, Ht, K1, K2, H1, H2.
    rewrite <- !app_assoc. simpl. auto.
  - rewrite (readlinkat_fast _ _ _ _ _ T).
    pose proof (call_real_readlinkat_events dirfd (Some p) buf bufsiz
                  (log (EvGetenv override_var) st)) as H.
    simpl in H. destruct H as (Ht & H1 & H2).
    exists []. rewrite Ht, H1, H2, app_nil_r, <- app_assoc. simpl. auto.
Qed.

Lemma synthesis_silent (fin : list event) :
  Forall (fun e => is_synthesis e = true) fin ->
  filter is_real_call fin = [] /\ filter is_getenv fin = [] /\
  (forall name, lookups name fin = []) /\
  (forall name, callees name fin = []).
Proof.
  induction 1 as [|e fin He _ (I1 & I2 & I3 & I4)]; [simpl; auto|].
  destruct e; try discriminate He. simpl. auto.
Qed.

Lemma resolution_events_other (name other : string) (cached found : option addr)
    (call : addr -> event) :
  String.eqb name other = false ->
  (forall f, lookups other [call f] = [] /\ callees other [call f] = []) ->
  lookups other (resolution_events name cached found call) = [] /\
  callees other (resolution_events name cached found call) = [].
Proof.
  intros Hne Hc. unfold resolution_events.
  destruct cached as [f|]; [apply Hc|].
  simpl. rewrite Hne.
  destruct found as [f|]; [apply Hc|simpl; auto].
Qed.

(** X8: a wrapper keeps to its own symbol: [readlink] neither looks up nor calls
    the original [readlinkat] and leaves its pointer alone, and the other way
    round. *)
Theorem wrappers_keep_to_their_symbol (path buf : option (list byte))
    (bufsiz : N) (dirfd : Z) (st : process World) :
  let st1 := snd (readlink path buf bufsiz st) in
  let st2 := snd (readlinkat dirfd path buf bufsiz st) in
  (real_readlinkat_fn st1 = real_readlinkat_fn st /\
   lookups "readlinkat" (trace st1) = lookups "readlinkat" (trace st) /\
   callees "readlinkat" (trace st1) = callees "readlinkat" (trace st)) /\
  (real_readlink_fn st2 = real_readlink_fn st /\
   lookups "readlink" (trace st2) = lookups "readlink" (trace st) /\
   callees "readlink" (trace st2) = callees "readlink" (trace st)).
Proof.
  destruct path as [p|]; [|simpl; auto 7].
  split.
  - destruct (readlink_events p buf bufsiz st) as (fin & Ht & Hs & _ & K).
    destruct (synthesis_silent fin Hs) as (_ & _ & L & C).
    destruct (resolution_events_other "readlink" "readlinkat"
                (real_readlink_fn st) (dlsym_next (world st) "readlink")
                (fun f =>
                   if takes_override (Some p) st
                   then EvReadlink f (Some p) scratch (PATH_MAX - 1)
                   else EvReadlink f (Some p) buf bufsiz) eq_refl)
      as [L' C'].
    { intros f. destruct (takes_override (Some p) st); simpl; auto. }
    simpl. rewrite K, Ht.
    rewrite lookups_app, callees_app. simpl.
    rewrite lookups_app, callees_app, L, C, L', C', !app_nil_r. auto.
  - destruct (readlinkat_events dirfd p buf bufsiz st)
      as (fin & Ht & Hs & _ & K).
    destruct (synthesis_silent fin Hs) as (_ & _ & L & C).
    destruct (resolution_events_other "readlinkat" "readlink"
                (real_readlinkat_fn st) (dlsym_next (world st) "readlinkat")
                (fun f =>
                   if takes_override (Some p) st
                   then EvReadlinkat f dirfd (Some p) scratch (PATH_MAX - 1)
                   else EvReadlinkat f dirfd (Some p) buf bufsiz) eq_refl)
      as [L' C'].
    { intros f. destruct (takes_override (Some p) st); simpl; auto. }
    simpl. rewrite K, Ht.
    rewrite lookups_app, callees_app. simpl.
    rewrite lookups_app, callees_app, L, C, L', C', !app_nil_r. auto.
Qed.

Lemma resolution_events_getenv (name : string) (cached found : option addr)
    (call : addr -> event) :
  (forall f, is_getenv (call f) = false) ->
  filter is_getenv (resolution_events name cached found call) = [].
Proof.
  intros Hc. unfold resolution_events.
  destruct cached as [f|]; simpl; [rewrite Hc; reflexivity|].
  destruct found as [f|]; simpl; [rewrite Hc|]; reflexivity.
Qed.

(** X7: the override is read from the environment on every call: a wrapper given
    a path that is not null calls [getenv] exactly once, for
    OBS_VKCAPTURE_EXE_NAME, whatever happens next. *)
Theorem getenv_once_per_call (p : list byte) (buf : option (list byte))
    (bufsiz : N) (dirfd : Z) (st : process World) :
  filter is_getenv (trace (snd (readlink (Some p) buf bufsiz st)))
  = filter is_getenv (trace st) ++ [EvGetenv override_var] /\
  filter is_getenv (trace (snd (readlinkat dirfd (Some p) buf bufsiz st)))
  = filter is_getenv (trace st) ++ [EvGetenv override_var].
Proof.
  split.
  - destruct (readlink_events p buf bufsiz st) as (fin & Ht & Hs & _).
    destruct (synthesis_silent fin Hs) as (_ & G & _).
    rewrite Ht, filter_app. simpl. rewrite filter_app, G.
    rewrite resolution_events_getenv; [reflexivity|].
    intros f. destruct (takes_override (Some p) st); reflexivity.
  - destruct (readlinkat_events dirfd p buf bufsiz st) as (fin & Ht & Hs & _).
    destruct (synthesis_silent fin Hs) as (_ & G & _).
    rewrite Ht, filter_app. simpl. rewrite filter_app, G.
    rewrite resolution_events_getenv; [reflexivity|].
    intros f. destruct (takes_override (Some p) st); reflexivity.
Qed.

Lemma resolution_events_calls (name : string) (cached found : option addr)
    (call : addr -> event) (f : addr) :
  (forall g, is_real_call (call g) = true) ->
  match cached with Some g => Some g | None => found end = Some f ->
  filter is_real_call (resolution_events name cached found call) = [call f].
Proof.
  intros Hc R. unfold resolution_events.
  destruct cached as [g|]; [injection R as ->|subst found]; simpl;
    rewrite Hc; reflexivity.
Qed.

(** X6: on the override path the original is entered exactly once, on the
    wrapper's own array of PATH_MAX bytes with capacity PATH_MAX - 1: the
    caller's buffer and capacity are not handed to it. *)
Theorem override_calls_original_on_scratch (p : list byte)
    (buf : option (list byte)) (bufsiz : N) (dirfd : Z) (st : process World) :
  takes_override (Some p) st = true ->
  (forall f, resolved "readlink" (real_readlink_fn st) st = Some f ->
     filter is_real_call (trace (snd (readlink (Some p) buf bufsiz st)))
     = filter is_real_call (trace st)
       ++ [EvReadlink f (Some p) scratch (PATH_MAX - 1)]) /\
  (forall g, resolved "readlinkat" (real_readlinkat_fn st) st = Some g ->
     filter is_real_call
       (trace (snd (readlinkat dirfd (Some p) buf bufsiz st)))
     = filter is_real_call (trace st)
       ++ [EvReadlinkat g dirfd (Some p) scratch (PATH_MAX - 1)]).
Proof.
  intros T. split; intros f R.
  - destruct (readlink_events p buf bufsiz st) as (fin & Ht & Hs & _).
    destruct (synthesis_silent fin Hs) as (C & _).
    rewrite Ht, T, filter_app. simpl. rewrite filter_app, C, app_nil_r.
    rewrite (resolution_events_calls _ _ _ _ f); auto.
  - destruct (readlinkat_events dirfd p buf bufsiz st) as (fin & Ht & Hs & _).
    destruct (synthesis_silent fin Hs) as (C & _).
    rewrite Ht, T, filter_app. simpl. rewrite filter_app, C, app_nil_r.
    rewrite (resolution_events_calls _ _ _ _ f); auto.
Qed.

(** X9: a lookup that found nothing is not remembered: the call returns with the
    pointer still null, and the next call, once the symbol can be found,
    looks it up, caches it and enters it. *)
Theorem failed_lookup_not_remembered (p p' : list byte)
    (buf buf' : option (list byte)) (bufsiz bufsiz' : N) (st : process World)
    (e : Z) (env : list (string * list byte)) (w : World) (f : addr) :
  resolved "readlink" (real_readlink_fn st) st = None ->
  dlsym_next w "readlink" = Some f ->
  let st1 := snd (readlink (Some p) buf bufsiz st) in
  let st2 :=
    Process (real_readlink_fn st1) (real_readlinkat_fn st1) e env w
      (trace st1) in
  let st3 := snd (readlink (Some p') buf' bufsiz' st2) in
  real_readlink_fn st1 = None /\
  callees "readlink" (trace st1) = callees "readlink" (trace st) /\
  real_readlink_fn st3 = Some f /\
  lookups "readlink" (trace st3)
  = lookups "readlink" (trace st) ++ [None; Some f] /\
  callees "readlink" (trace st3) = callees "readlink" (trace st) ++ [f].
Proof.
  intros R D st1 st2 st3.
  destruct (readlink_events p buf bufsiz st) as (fin & Ht & Hs & K & _).
  fold st1 in Ht, K. rewrite R in K.
  destruct (synthesis_silent fin Hs) as (_ & _ & L & C).
  unfold resolved in R.
  destruct (real_readlink_fn st) as [g|] eqn:E; [discriminate R|].
  rewrite R in Ht. simpl in Ht.
  assert (L1 : lookups "readlink" (trace st1)
               = lookups "readlink" (trace st) ++ [None]).
  { rewrite Ht, lookups_app. simpl. rewrite L. reflexivity. }
  assert (C1 : callees "readlink" (trace st1) = callees "readlink" (trace st)).
  { rewrite Ht, callees_app. simpl. rewrite C, app_nil_r. reflexivity. }
  destruct (readlink_events p' buf' bufsiz' st2) as (fin' & Ht' & Hs' & K' & _).
  fold st3 in Ht', K'.
  destruct (synthesis_silent fin' Hs') as (_ & _ & L' & C').
  unfold resolved in K'. simpl in Ht', K'. rewrite K in Ht', K'.
  rewrite D in Ht', K'. simpl in Ht'.
  split; [exact K|split; [exact C1|split; [exact K'|]]].
  rewrite Ht', lookups_app, callees_app, L1, C1.
  destruct (takes_override (Some p') st2); simpl;
    rewrite L', C', <- ?app_assoc; auto.
Qed.

Lemma nonempty_string_deref (ov : list byte) :
  c_str ov <> [] -> Byte.eqb (hd x00 ov) x00 = false.
Proof.
  destruct ov as [|b ov]; simpl; [contradiction|].
  destruct (Byte.eqb b x00); [contradiction|reflexivity].
Qed.


Lemma call_real_readlink_resolved path buf bufsiz st f :
  resolved "readlink" (real_readlink_fn st) st = Some f ->
  let r := code_readlink f path buf bufsiz (world st) (errno st) in
  exists st',
    call_real_readlink path buf bufsiz st
    = (sr_ret r, poke buf (sr_stored r), st') /\
    errno st' = sr_errno r /\ world st' = sr_world r.
Proof.
  intros R r. unfold resolved in R.
  destruct (real_readlink_fn st) as [g|] eqn:E.
  - injection R as ->.
    rewrite (call_real_readlink_cached _ _ _ _ f E).
    eexists. split; [reflexivity|]. simpl. auto.
  - rewrite (call_real_readlink_found _ _ _ _ f E R).
    eexists. split; [reflexivity|]. simpl. auto.
Qed.

Lemma call_real_readlinkat_resolved dirfd path buf bufsiz st f :
  resolved "readlinkat" (real_readlinkat_fn st) st = Some f ->
  let r := code_readlinkat f dirfd path buf bufsiz (world st) (errno st) in
  exists st',
    call_real_readlinkat dirfd path buf bufsiz st
    = (sr_ret r, poke buf (sr_stored r), st') /\
    errno st' = sr_errno r /\ world st' = sr_world r.
Proof.
  intros R r. unfold resolved in R.
  destruct (real_readlinkat_fn st) as [g|] eqn:E.
  - injection R as ->.
    rewrite (call_real_readlinkat_cached _ _ _ _ _ f E).
    eexists. split; [reflexivity|]. simpl. auto.
  - rewrite (call_real_readlinkat_found _ _ _ _ _ f E R).
    eexists. split; [reflexivity|]. simpl. auto.
Qed.

Lemma finish_override_observable n real_path override buf bufsiz st :
  observable (finish_override n real_path override buf bufsiz st)
  = (if (n <? 0)%Z then (n, buf)
     else build_override PATH_MAX (store real_path (Z.to_nat n) x00) override
            buf bufsiz,
     if (n <? 0)%Z then errno st
     else synthesized_errno EOVERFLOW (store real_path (Z.to_nat n) x00)
            override (errno st),
     world st).
Proof.
  destruct (Z.ltb_spec n 0) as [H|H].
  - rewrite finish_override_negative by exact H. reflexivity.
  - rewrite finish_override_success by exact H.
    set (bo := build_override _ _ _ _ _). destruct bo. reflexivity.
Qed.

Lemma readlink_override_observable p buf bufsiz st f :
  takes_override (Some p) st = true ->
  resolved "readlink" (real_readlink_fn st) st = Some f ->
  observable (readlink (Some p) buf bufsiz st)
  = override_outcome
      (code_readlink f (Some p) scratch (PATH_MAX - 1) (world st) (errno st))
      (pointee (lookup_env override_var (environ st))) buf bufsiz.
Proof.
  intros T R. rewrite (readlink_override _ _ _ _ T).
  destruct (call_real_readlink_resolved (Some p) scratch (PATH_MAX - 1)
              (log (EvGetenv override_var) st) f R) as (st' & E & He & Hw).
  rewrite E, finish_override_observable, He, Hw. reflexivity.
Qed.

Lemma readlinkat_override_observable dirfd p buf bufsiz st f :
  takes_override (Some p) st = true ->
  resolved "readlinkat" (real_readlinkat_fn st) st = Some f ->
  observable (readlinkat dirfd (Some p) buf bufsiz st)
  = override_outcome
      (code_readlinkat f dirfd (Some p) scratch (PATH_MAX - 1) (world st)
         (errno st))
      (pointee (lookup_env override_var (environ st))) buf bufsiz.
Proof.
  intros T R. rewrite (readlinkat_override _ _ _ _ _ T).
  destruct (call_real_readlinkat_resolved dirfd (Some p) scratch
              (PATH_MAX - 1) (log (EvGetenv override_var) st) f R)
    as (st' & E & He & Hw).
  rewrite E, finish_override_observable, He, Hw. reflexivity.
Qed.

Lemma length_uninitialized (size : N) :
  length (uninitialized junk size) = N.to_nat size.
Proof. unfold uninitialized. rewrite length_map, length_seq. reflexivity. Qed.

(** The string the synthesis reads when the inner call stored the string
    [target] and reported its length. *)
Lemma stored_target (target : list byte) :
  ~ In x00 target -> N.of_nat (length target) < PATH_MAX ->
  c_str (store (pointee (poke scratch target)) (length target) x00) = target.
Proof.
  intros Hn Hlen. simpl. rewrite c_str_store.
  - rewrite firstn_app, firstn_all, Nat.sub_diag, firstn_0, app_nil_r.
    apply c_str_id, Hn.
  - rewrite length_app, length_skipn, length_uninitialized. lia.
Qed.

Lemma override_outcome_substitutes (r : sysret World)
    (override : list byte) (buf : option (list byte)) (bufsiz : N)
    (dir : option (list byte)) (base : list byte) :
  PATH_MAX <= 2 ^ 31 ->
  sr_stored r = whole dir base ->
  sr_ret r = Z.of_nat (length (whole dir base)) ->
  ~ In x00 (whole dir base) -> ~ In slash base ->
  N.of_nat (length (whole dir base)) < PATH_MAX ->
  N.of_nat (length (joined dir (c_str override))) < PATH_MAX ->
  let m := N.min (N.of_nat (length (joined dir (c_str override)))) bufsiz in
  override_outcome r override buf bufsiz
  = (Z.of_N m,
     option_map
       (fun dst =>
          firstn (N.to_nat m) (joined dir (c_str override))
          ++ skipn (N.to_nat m) dst) buf,
     sr_errno r, sr_world r).
Proof.
  intros HP Hs Hr Hn Hb Hlen Hj m. unfold override_outcome.
  destruct (Z.ltb_spec (sr_ret r) 0) as [H|_]; [lia|].
  rewrite Hs, Hr, Nat2Z.id.
  assert (S : short_dir dir).
  { intros d ->. simpl in Hj. rewrite length_app in Hj. lia. }
  pose proof (stored_target (whole dir base) Hn Hlen) as Ht.
  rewrite build_override_eq by lia.
  rewrite (synthesized_string PATH_MAX _ _ dir base Ht Hb S).
  rewrite synthesized_errno_formatted.
  rewrite (formatted_of_string _ _ dir base Ht Hb S).
  rewrite firstn_all2 by lia. unfold snprintf_errno, INT_MAX.
  destruct (Z.ltb_spec (2 ^ 31 - 1)
              (Z.of_nat (length (joined dir (c_str override)))))
    as [Hbig|_]; [|reflexivity].
  assert (Z.of_N PATH_MAX <= 2 ^ 31)%Z
    by (change (2 ^ 31)%Z with (Z.of_N (2 ^ 31)); lia).
  lia.
Qed.

(** X1: the override path end to end: when the original stores the target
    [dir]/[base] and reports its length, the wrapper leaves [dir]/override in
    the caller's buffer (as much of it as the capacity allows), returns the
    number of bytes it left there, and keeps the [errno] and the world of the
    original. *)
Theorem override_substitutes (p : list byte) (buf : option (list byte))
    (bufsiz : N) (dirfd : Z) (st : process World)
    (dir : option (list byte)) (base : list byte) :
  PATH_MAX <= 2 ^ 31 ->
  takes_override (Some p) st = true ->
  ~ In x00 (whole dir base) -> ~ In slash base ->
  N.of_nat (length (whole dir base)) < PATH_MAX ->
  let ov := c_str (pointee (lookup_env override_var (environ st))) in
  N.of_nat (length (joined dir ov)) < PATH_MAX ->
  let m := N.min (N.of_nat (length (joined dir ov))) bufsiz in
  let expected :=
    (Z.of_N m,
     option_map
       (fun dst => firstn (N.to_nat m) (joined dir ov) ++ skipn (N.to_nat m) dst)
       buf) in
  let reports (r : sysret World) :=
    sr_stored r = whole dir base /\
    sr_ret r = Z.of_nat (length (whole dir base)) in
  (forall f, resolved "readlink" (real_readlink_fn st) st = Some f ->
     let r := code_readlink f (Some p) scratch (PATH_MAX - 1) (world st)
                (errno st) in
     reports r ->
     observable (readlink (Some p) buf bufsiz st)
     = (expected, sr_errno r, sr_world r)) /\
  (forall g, resolved "readlinkat" (real_readlinkat_fn st) st = Some g ->
     let r := code_readlinkat g dirfd (Some p) scratch (PATH_MAX - 1)
                (world st) (errno st) in
     reports r ->
     observable (readlinkat dirfd (Some p) buf bufsiz st)
     = (expected, sr_errno r, sr_world r)).
Proof.
  intros HP T Hn Hb Hlen ov Hj m expected reports.
  split; intros f R r [Hs Hr].
  - rewrite (readlink_override_observable _ _ _ _ f T R).
    apply (override_outcome_substitutes _ _ _ _ dir base); assumption.
  - rewrite (readlinkat_override_observable _ _ _ _ _ f T R).
    apply (override_outcome_substitutes _ _ _ _ dir base); assumption.
Qed.

(** X11: [readlinkat] is [readlink] with [dirfd] passed through: where the two
    originals behave alike, the two wrappers return the same result, leave
    the same destination, the same [errno] and the same world. *)
Theorem readlinkat_agrees_with_readlink (path buf : option (list byte))
    (bufsiz : N) (dirfd : Z) (st : process World) (f g : addr) :
  resolved "readlink" (real_readlink_fn st) st = Some f ->
  resolved "readlinkat" (real_readlinkat_fn st) st = Some g ->
  (forall pa b n w e,
     code_readlinkat g dirfd pa b n w e = code_readlink f pa b n w e) ->
  observable (readlinkat dirfd path buf bufsiz st)
  = observable (readlink path buf bufsiz st).
Proof.
  intros Rf Rg H. destruct path as [p|]; [|reflexivity].
  destruct (takes_override (Some p) st) eqn:T.
  - rewrite (readlink_override_observable _ _ _ _ f T Rf).
    rewrite (readlinkat_override_observable _ _ _ _ _ g T Rg).
    rewrite H. reflexivity.
  - rewrite (readlink_fast _ _ _ _ T), (readlinkat_fast _ _ _ _ _ T).
    destruct (call_real_readlink_resolved (Some p) buf bufsiz
                (log (EvGetenv override_var) st) f Rf) as (s1 & E1 & He1 & Hw1).
    destruct (call_real_readlinkat_resolved dirfd (Some p) buf bufsiz
                (log (EvGetenv override_var) st) g Rg) as (s2 & E2 & He2 & Hw2).
    rewrite E1, E2. unfold observable.
    rewrite He1, Hw1, He2, Hw2, !H. reflexivity.
Qed.

(** ** Lookups, call by call *)

Lemma resolution_events_lookups (name : string) (cached found : option addr)
    (call : addr -> event) :
  String.eqb name name = true ->
  (forall f, lookups name [call f] = []) ->
  lookups name (resolution_events name cached found call)
  = match cached with
    | Some _ => []
    | None => [found]
    end.
Proof.
  intros Hn Hc. unfold resolution_events.
  destruct cached as [f|]; [apply Hc|].
  simpl. rewrite Hn. destruct found as [f|]; [rewrite Hc|]; reflexivity.
Qed.

Lemma readlink_lookups p buf bufsiz st :
  let st' := snd (readlink (Some p) buf bufsiz st) in
  lookups "readlink" (trace st')
  = lookups "readlink" (trace st)
    ++ match real_readlink_fn st with
       | Some _ => []
       | None => [dlsym_next (world st) "readlink"]
       end /\
  real_readlink_fn st' = resolved "readlink" (real_readlink_fn st) st.
Proof.
  destruct (readlink_events p buf bufsiz st) as (fin & Ht & Hs & K & _).
  destruct (synthesis_silent fin Hs) as (_ & _ & L & _).
  split; [|exact K].
  rewrite Ht, lookups_app. simpl. rewrite lookups_app, L, app_nil_r.
  rewrite resolution_events_lookups; [reflexivity|reflexivity|].
  intros f. destruct (takes_override (Some p) st); reflexivity.
Qed.

Lemma readlinkat_lookups dirfd p buf bufsiz st :
  let st' := snd (readlinkat dirfd (Some p) buf bufsiz st) in
  lookups "readlinkat" (trace st')
  = lookups "readlinkat" (trace st)
    ++ match real_readlinkat_fn st with
       | Some _ => []
       | None => [dlsym_next (world st) "readlinkat"]
       end /\
  real_readlinkat_fn st' = resolved "readlinkat" (real_readlinkat_fn st) st.
Proof.
  destruct (readlinkat_events dirfd p buf bufsiz st)
    as (fin & Ht & Hs & K & _).
  destruct (synthesis_silent fin Hs) as (_ & _ & L & _).
  split; [|exact K].
  rewrite Ht, lookups_app. simpl. rewrite lookups_app, L, app_nil_r.
  rewrite resolution_events_lookups; [reflexivity|reflexivity|].
  intros f. destruct (takes_override (Some p) st); reflexivity.
Qed.

(** C5 (amended): in any run of the process, a call of a wrapper on a path
    that is not null looks its symbol up exactly once when its pointer is
    null and not at all when it is not, and leaves the answer of the lookup,
    null or not, in the pointer; no call of a wrapper looks a symbol up more
    than once.  So a lookup that finds the symbol is the last lookup of it:
    every lookup before the one that gave the cached pointer found nothing,
    a pointer that is not null is left as it is and looked up no more, and
    every call of the original went to it; and a lookup that finds nothing
    leaves the pointer null, so that the next call on a path that is not null
    looks up again. *)
Theorem lookups_stop_at_success (st : process World) :
  reachable st ->
  resolved_once "readlink" (real_readlink_fn st) (trace st) /\
  resolved_once "readlinkat" (real_readlinkat_fn st) (trace st) /\
  (forall st', step st st' ->
     (length (lookups "readlink" (trace st'))
      <= S (length (lookups "readlink" (trace st))))%nat /\
     (length (lookups "readlinkat" (trace st'))
      <= S (length (lookups "readlinkat" (trace st))))%nat /\
     (forall f, real_readlink_fn st = Some f ->
        real_readlink_fn st' = Some f /\
        lookups "readlink" (trace st') = lookups "readlink" (trace st)) /\
     (forall g, real_readlinkat_fn st = Some g ->
        real_readlinkat_fn st' = Some g /\
        lookups "readlinkat" (trace st') = lookups "readlinkat" (trace st))) /\
  (forall p buf bufsiz,
     let st' := snd (readlink (Some p) buf bufsiz st) in
     lookups "readlink" (trace st')
     = lookups "readlink" (trace st)
       ++ match real_readlink_fn st with
          | Some _ => []
          | None => [dlsym_next (world st) "readlink"]
          end /\
     real_readlink_fn st' = resolved "readlink" (real_readlink_fn st) st) /\
  (forall dirfd p buf bufsiz,
     let st' := snd (readlinkat dirfd (Some p) buf bufsiz st) in
     lookups "readlinkat" (trace st')
     = lookups "readlinkat" (trace st)
       ++ match real_readlinkat_fn st with
          | Some _ => []
          | None => [dlsym_next (world st) "readlinkat"]
          end /\
     real_readlinkat_fn st' = resolved "readlinkat" (real_readlinkat_fn st) st).
Proof.
  intros R. destruct (reachable_resolved_once st R) as [I1 I2].
  split; [exact I1|split; [exact I2|split; [|split]]].
  - intros st' S. destruct (step_resolution st st' S) as [R1 R2].
    destruct (resolution_step_growth _ _ _ _ _ R1) as [G1 M1].
    destruct (resolution_step_growth _ _ _ _ _ R2) as [G2 M2].
    auto.
  - intros p buf bufsiz. apply readlink_lookups.
  - intros dirfd p buf bufsiz. apply readlinkat_lookups.
Qed.

(** ** The null path in an optimising build *)




(** ** [errno] after a long override *)

Lemma errno_observable (x : Z * option (list byte) * process World) :
  errno (snd x) = snd (fst (observable x)).
Proof. destruct x as [[n b] s]. reflexivity. Qed.

Lemma takes_override_intro p st ov :
  c_str p = proc_self_exe ->
  lookup_env override_var (environ st) = Some ov -> c_str ov <> [] ->
  takes_override (Some p) st = true.
Proof.
  intros Hp Ho Hne. unfold takes_override.
  rewrite Ho. unfold deref. simpl.
  rewrite (nonempty_string_deref ov Hne). simpl.
  apply negb_true_iff, negb_false_iff, Z.eqb_eq, strcmp_zero.
  rewrite Hp. reflexivity.
Qed.

Lemma readlink_override_errno p buf bufsiz st f :
  takes_override (Some p) st = true ->
  resolved "readlink" (real_readlink_fn st) st = Some f ->
  (0 <= sr_ret (code_readlink f (Some p) scratch (PATH_MAX - 1)%N (world st)
                  (errno st)))%Z ->
  (INT_MAX
   < Z.of_nat (length (c_str (pointee (lookup_env override_var
                                         (environ st))))))%Z ->
  errno (snd (readlink (Some p) buf bufsiz st)) = EOVERFLOW.
Proof.
  intros T R Hn Hlong.
  rewrite errno_observable, (readlink_override_observable _ _ _ _ f T R).
  unfold override_outcome. simpl.
  destruct (Z.ltb_spec (sr_ret (code_readlink f (Some p) scratch
                                  (PATH_MAX - 1) (world st) (errno st))) 0)
    as [H|_]; [lia|].
  rewrite synthesized_errno_formatted. unfold snprintf_errno.
  match goal with
  | |- context [formatted ?t ?o] =>
      pose proof (formatted_at_least_override t o) as Hf;
      destruct (Z.ltb_spec INT_MAX (Z.of_nat (length (formatted t o))))
        as [_|Hs]
  end; [reflexivity|lia].
Qed.

End Wrappers.


(** ** The wrapper's own array *)

Lemma stored_prefix_string (a a' w : list byte) (n : nat) :
  (n <= length w)%nat -> (n < length a)%nat -> (n < length a')%nat ->
  c_str (store (w ++ skipn (length w) a) n x00)
  = c_str (store (w ++ skipn (length w) a') n x00).
Proof.
  intros Hw Ha Ha'.
  rewrite !c_str_store by (rewrite length_app, length_skipn; lia).
  rewrite !firstn_app. replace (n - length w)%nat with O by lia.
  reflexivity.
Qed.

(** X5: the bytes the wrapper's array held before the inner call never reach the
    caller: for an original that does not look at its destination, stores at
    least the bytes it reports and reports fewer than PATH_MAX, the wrapper
    returns the same whatever the array held. *)
Theorem scratch_contents_never_read (World : Type) (PATH_MAX : N)
    (EINVAL ENOSYS EOVERFLOW : Z)
    (dlsym_next : World -> string -> option addr)
    (code_readlink : addr -> readlink_t World)
    (code_readlinkat : addr -> readlinkat_t World) (junk junk' : nat -> byte)
    (p : list byte) (buf : option (list byte)) (bufsiz : N) (dirfd : Z)
    (st : process World) :
  takes_override World (Some p) st = true ->
  let a := Some (uninitialized junk PATH_MAX) in
  let a' := Some (uninitialized junk' PATH_MAX) in
  let honest (r : sysret World) :=
    (0 <= sr_ret r)%Z ->
    (Z.to_nat (sr_ret r) <= length (sr_stored r))%nat /\
    (sr_ret r < Z.of_N PATH_MAX)%Z in
  (forall f,
     resolved World dlsym_next "readlink" (real_readlink_fn st) st = Some f ->
     let r := code_readlink f (Some p) a (PATH_MAX - 1) (world st) (errno st) in
     code_readlink f (Some p) a' (PATH_MAX - 1) (world st) (errno st) = r ->
     honest r ->
     observable World
       (readlink World PATH_MAX EINVAL ENOSYS EOVERFLOW dlsym_next
          code_readlink junk (Some p) buf bufsiz st)
     = observable World
         (readlink World PATH_MAX EINVAL ENOSYS EOVERFLOW dlsym_next
            code_readlink junk' (Some p) buf bufsiz st)) /\
  (forall g,
     resolved World dlsym_next "readlinkat" (real_readlinkat_fn st) st
     = Some g ->
     let r := code_readlinkat g dirfd (Some p) a (PATH_MAX - 1) (world st)
                (errno st) in
     code_readlinkat g dirfd (Some p) a' (PATH_MAX - 1) (world st) (errno st)
     = r ->
     honest r ->
     observable World
       (readlinkat World PATH_MAX EINVAL ENOSYS EOVERFLOW dlsym_next
          code_readlinkat junk dirfd (Some p) buf bufsiz st)
     = observable World
         (readlinkat World PATH_MAX EINVAL ENOSYS EOVERFLOW dlsym_next
            code_readlinkat junk' dirfd (Some p) buf bufsiz st)).
Proof.
  intros T a a' honest.
  assert (K : forall r : sysret World, honest r ->
            override_outcome World PATH_MAX EOVERFLOW junk r
              (pointee (lookup_env override_var (environ st))) buf bufsiz
            = override_outcome World PATH_MAX EOVERFLOW junk' r
                (pointee (lookup_env override_var (environ st))) buf bufsiz).
  { intros r Hr. unfold override_outcome.
    destruct (Z.ltb_spec (sr_ret r) 0) as [H|H]; [reflexivity|].
    destruct (Hr H) as [Hw Hn].
    rewrite !synthesized_errno_formatted.
    rewrite (formatted_reads_strings
               (store (pointee (poke (Some (uninitialized junk PATH_MAX))
                                  (sr_stored r))) _ _)).
    rewrite (formatted_reads_strings
               (store (pointee (poke (Some (uninitialized junk' PATH_MAX))
                                  (sr_stored r))) _ _)).
    rewrite (build_override_reads_strings PATH_MAX
               (store (pointee (poke (Some (uninitialized junk PATH_MAX))
                                  (sr_stored r))) _ _)).
    rewrite (build_override_reads_strings PATH_MAX
               (store (pointee (poke (Some (uninitialized junk' PATH_MAX))
                                  (sr_stored r))) _ _)).
    simpl. rewrite (stored_prefix_string _ (uninitialized junk' PATH_MAX));
      [reflexivity|exact Hw|rewrite length_uninitialized; lia
      |rewrite length_uninitialized; lia]. }
  split; intros f R r E Hr.
  - rewrite (readlink_override_observable World PATH_MAX EINVAL ENOSYS
               EOVERFLOW dlsym_next code_readlink junk p buf bufsiz st f T R).
    rewrite (readlink_override_observable World PATH_MAX EINVAL ENOSYS
               EOVERFLOW dlsym_next code_readlink junk' p buf bufsiz st f T R).
    fold a a'. rewrite E. apply K, Hr.
  - rewrite (readlinkat_override_observable World PATH_MAX EINVAL ENOSYS
               EOVERFLOW dlsym_next code_readlinkat junk dirfd p buf bufsiz st
               f T R).
    rewrite (readlinkat_override_observable World PATH_MAX EINVAL ENOSYS
               EOVERFLOW dlsym_next code_readlinkat junk' dirfd p buf bufsiz
               st f T R).
    fold a a'. rewrite E. apply K, Hr.
Qed.

(** ** The theorems at work on the demo system *)

Lemma wrappers_transparent_witness :
  observable _ (Demo.readlink (Some (lit "/etc/localtime")) (Demo.room 30) 30
                  Demo.with_override)
  = observable _
      (direct _
         (Demo.sys_readlink (Some (lit "/etc/localtime")) (Demo.room 30) 30
            Demo.links 0%Z)
         (Demo.room 30) Demo.with_override).
Proof.
  refine (proj1 (proj2 (proj1
    (wrappers_transparent Demo.World Demo.PATH_MAX Demo.EINVAL Demo.ENOSYS Demo.EOVERFLOW
       Demo.dlsym_next Demo.code_readlink Demo.code_readlinkat Demo.junk
       (lit "/etc/localtime") (Demo.room 30) 30 (-100) Demo.with_override _))
    1%positive _)).
  - left. vm_compute. discriminate.
  - reflexivity.
Defined.

Lemma inner_failure_propagates_witness :
  fst (Demo.readlink (Some (lit "/proc/self/exe")) (Demo.room 20) 20
         Demo.stranded)
  = ((-1)%Z, Demo.room 20).
Proof.
  assert (T : takes_override Demo.World (Some (lit "/proc/self/exe"))
                Demo.stranded = true) by reflexivity.
  destruct (inner_failure_propagates Demo.World Demo.PATH_MAX Demo.EINVAL
              Demo.ENOSYS Demo.EOVERFLOW Demo.dlsym_next Demo.code_readlink
              Demo.code_readlinkat Demo.junk (lit "/proc/self/exe")
              (Demo.room 20) 20 (-100) Demo.stranded T) as [H _].
  edestruct H as [E _]; [reflexivity| |unfold Demo.readlink; rewrite E].
  - vm_compute. reflexivity.
  - reflexivity.
Defined.

Lemma missing_original_is_ENOSYS_witness :
  observable _ (Demo.readlink_alone (Some (lit "/proc/self/exe"))
                  (Demo.room 20) 20 Demo.with_override)
  = ((-1)%Z, Demo.room 20, Demo.ENOSYS, Demo.links) /\
  observable _ (Demo.readlinkat_alone (-100) (Some (lit "/etc/localtime"))
                  (Demo.room 20) 20 Demo.with_override)
  = ((-1)%Z, Demo.room 20, Demo.ENOSYS, Demo.links).
Proof.
  destruct (missing_original_is_ENOSYS Demo.World Demo.PATH_MAX Demo.EINVAL
              Demo.ENOSYS Demo.EOVERFLOW Demo.dlsym_nothing Demo.code_readlink
              Demo.code_readlinkat Demo.junk (lit "/proc/self/exe")
              (Demo.room 20) 20 (-100) Demo.with_override) as [H _].
  destruct (missing_original_is_ENOSYS Demo.World Demo.PATH_MAX Demo.EINVAL
              Demo.ENOSYS Demo.EOVERFLOW Demo.dlsym_nothing Demo.code_readlink
              Demo.code_readlinkat Demo.junk (lit "/etc/localtime")
              (Demo.room 20) 20 (-100) Demo.with_override) as [_ H'].
  unfold Demo.readlink_alone, Demo.readlinkat_alone.
  rewrite H by reflexivity. rewrite H' by reflexivity.
  split; reflexivity.
Defined.

Lemma override_never_fails_witness :
  fst (Demo.readlink (Some (lit "/proc/self/exe")) (Demo.room 20) 8
         Demo.with_override)
  = (8%Z, Some (lit "/usr/bin" ++ repeat x2e 12)).
Proof.
  assert (P : Demo.PATH_MAX <= 2 ^ 63) by (vm_compute; discriminate).
  assert (T : takes_override Demo.World (Some (lit "/proc/self/exe"))
                Demo.with_override = true) by reflexivity.
  destruct (override_never_fails Demo.World Demo.PATH_MAX Demo.EINVAL
              Demo.ENOSYS Demo.EOVERFLOW Demo.dlsym_next Demo.code_readlink
              Demo.code_readlinkat Demo.junk (lit "/proc/self/exe")
              (Demo.room 20) 8 (-100) Demo.with_override P T) as [H _].
  edestruct H as [E _]; [reflexivity| |unfold Demo.readlink; rewrite E].
  - vm_compute. discriminate.
  - vm_compute. reflexivity.
Defined.

Lemma lookups_stop_at_success_witness :
  let st := snd (Demo.readlink (Some (lit "/proc/self/exe")) (Demo.room 20) 20
                   Demo.with_override) in
  resolved_once "readlink" (real_readlink_fn st) (trace st) /\
  real_readlink_fn st = Some 1%positive.
Proof.
  split; [|reflexivity].
  refine (proj1 (lookups_stop_at_success Demo.World Demo.PATH_MAX Demo.EINVAL
                   Demo.ENOSYS Demo.EOVERFLOW Demo.dlsym_next Demo.code_readlink
                   Demo.code_readlinkat Demo.junk _ _)).
  eapply reach_step; [apply reach_initial|apply step_readlink].
  repeat split.
Defined.

(** Where the lookup finds nothing, two calls of [readlink] look the symbol
    up twice. *)
Lemma looked_up_at_most_once_counterexample :
  ~ looked_up_at_most_once Demo.World Demo.PATH_MAX Demo.EINVAL Demo.ENOSYS Demo.EOVERFLOW
      Demo.dlsym_nothing Demo.code_readlink Demo.code_readlinkat Demo.junk.
Proof.
  intros H.
  pose (st1 := snd (Demo.readlink_alone (Some (lit "/etc/localtime"))
                      (Demo.room 30) 30 Demo.with_override)).
  pose (st2 := snd (Demo.readlink_alone (Some (lit "/etc/localtime"))
                      (Demo.room 30) 30 st1)).
  destruct (H st2) as [H1 _].
  - eapply reach_step; [eapply reach_step; [apply reach_initial|]|].
    + instantiate (1 := Demo.with_override). repeat split.
    + apply step_readlink.
    + apply step_readlink.
  - vm_compute in H1. lia.
Qed.

Example lookup_retried :
  lookups "readlink"
    (trace (snd (Demo.readlink_alone (Some (lit "/etc/localtime"))
                   (Demo.room 30) 30
                   (snd (Demo.readlink_alone (Some (lit "/etc/localtime"))
                           (Demo.room 30) 30 Demo.with_override)))))
  = [None; None].
Proof. vm_compute. reflexivity. Qed.

Lemma override_substitutes_witness :
  observable _ (Demo.readlink (Some (lit "/proc/self/exe")) (Demo.room 20) 20
                  Demo.with_override)
  = (17%Z, Some (lit "/usr/bin/fakeprog" ++ repeat x2e 3), 0%Z, Demo.links).
Proof.
  refine (eq_trans
    (proj1 (override_substitutes Demo.World Demo.PATH_MAX Demo.EINVAL
              Demo.ENOSYS Demo.EOVERFLOW Demo.dlsym_next Demo.code_readlink
              Demo.code_readlinkat Demo.junk (lit "/proc/self/exe")
              (Demo.room 20) 20 (-100) Demo.with_override
              (Some (lit "/usr/bin")) (lit "realprog") _ _ _ _ _ _)
       1%positive _ _) _).
  - vm_compute. discriminate.
  - reflexivity.
  - absent.
  - absent.
  - vm_compute. reflexivity.
  - vm_compute. reflexivity.
  - reflexivity.
  - split; vm_compute; reflexivity.
  - vm_compute. reflexivity.
Defined.

Lemma readlinkat_agrees_with_readlink_witness :
  observable _ (Demo.readlinkat (-100) (Some (lit "/proc/self/exe"))
                  (Demo.room 20) 8 Demo.with_override)
  = observable _ (Demo.readlink (Some (lit "/proc/self/exe")) (Demo.room 20) 8
                    Demo.with_override).
Proof.
  apply (readlinkat_agrees_with_readlink Demo.World Demo.PATH_MAX Demo.EINVAL
           Demo.ENOSYS Demo.EOVERFLOW Demo.dlsym_next Demo.code_readlink
           Demo.code_readlinkat Demo.junk (Some (lit "/proc/self/exe"))
           (Demo.room 20) 8 (-100) Demo.with_override 1%positive 2%positive).
  - reflexivity.
  - reflexivity.
  - reflexivity.
Defined.

Lemma override_calls_original_on_scratch_witness :
  filter is_real_call
    (trace (snd (Demo.readlink (Some (lit "/proc/self/exe")) (Demo.room 20) 20
                   Demo.with_override)))
  = [EvReadlink 1%positive (Some (lit "/proc/self/exe"))
       (Some (repeat xaa 4096)) 4095].
Proof.
  refine (eq_trans
    (proj1 (override_calls_original_on_scratch Demo.World Demo.PATH_MAX
              Demo.EINVAL Demo.ENOSYS Demo.EOVERFLOW Demo.dlsym_next Demo.code_readlink
              Demo.code_readlinkat Demo.junk (lit "/proc/self/exe")
              (Demo.room 20) 20 (-100) Demo.with_override _)
       1%positive _) _).
  - reflexivity.
  - reflexivity.
  - vm_compute. reflexivity.
Defined.

Lemma failed_lookup_not_remembered_witness :
  let st1 :=
    snd (readlink Demo.World Demo.PATH_MAX Demo.EINVAL Demo.ENOSYS Demo.EOVERFLOW
           Demo.dlsym_late Demo.code_readlink Demo.junk
           (Some (lit "/proc/self/exe")) (Demo.room 20) 20 Demo.stranded) in
  let st2 :=
    Process (real_readlink_fn st1) (real_readlinkat_fn st1) (errno st1)
      (environ st1) Demo.links (trace st1) in
  let st3 :=
    snd (readlink Demo.World Demo.PATH_MAX Demo.EINVAL Demo.ENOSYS Demo.EOVERFLOW
           Demo.dlsym_late Demo.code_readlink Demo.junk
           (Some (lit "/proc/self/exe")) (Demo.room 20) 20 st2) in
  errno st1 = Demo.ENOSYS /\
  real_readlink_fn st1 = None /\ real_readlink_fn st3 = Some 1%positive /\
  lookups "readlink" (trace st3) = [None; Some 1%positive].
Proof.
  intros st1 st2 st3.
  destruct (failed_lookup_not_remembered Demo.World Demo.PATH_MAX Demo.EINVAL
              Demo.ENOSYS Demo.EOVERFLOW Demo.dlsym_late Demo.code_readlink Demo.junk
              (lit "/proc/self/exe") (lit "/proc/self/exe") (Demo.room 20)
              (Demo.room 20) 20 20 Demo.stranded (errno st1) (environ st1)
              Demo.links 1%positive eq_refl eq_refl)
    as (H1 & _ & H3 & H4 & _).
  split; [reflexivity|]. split; [exact H1|]. split; [exact H3|exact H4].
Defined.


Lemma scratch_contents_never_read_witness :
  observable _ (Demo.readlink (Some (lit "/proc/self/exe")) (Demo.room 20) 20
                  Demo.with_override)
  = observable _
      (readlink Demo.World Demo.PATH_MAX Demo.EINVAL Demo.ENOSYS Demo.EOVERFLOW
         Demo.dlsym_next Demo.code_readlink (fun _ => x00)
         (Some (lit "/proc/self/exe")) (Demo.room 20) 20 Demo.with_override).
Proof.
  refine (proj1 (scratch_contents_never_read Demo.World Demo.PATH_MAX
                   Demo.EINVAL Demo.ENOSYS Demo.EOVERFLOW Demo.dlsym_next Demo.code_readlink
                   Demo.code_readlinkat Demo.junk (fun _ => x00)
                   (lit "/proc/self/exe") (Demo.room 20) 20 (-100)
                   Demo.with_override _) 1%positive _ _ _).
  - reflexivity.
  - reflexivity.
  - vm_compute. reflexivity.
  - intros _. vm_compute. split; [|reflexivity].
    repeat constructor.
Defined.


(** The demo process with any override of more than INT_MAX bytes: the
    inner call succeeds and leaves [errno] at 0, and the wrapper returns with
    [errno] at EOVERFLOW. *)
Lemma demo_long_override (ov : list byte) :
  ~ In x00 ov -> (INT_MAX < Z.of_nat (length ov))%Z ->
  let st := Demo.start [(override_var, ov)] in
  let p := lit "/proc/self/exe" in
  takes_override Demo.World (Some p) st = true /\
  errno (snd (Demo.readlink (Some p) (Demo.room 20) 20 st)) = Demo.EOVERFLOW /\
  exists n real_path st',
    call_real_readlink Demo.World Demo.ENOSYS Demo.dlsym_next
      Demo.code_readlink (Some p) (Some (uninitialized Demo.junk Demo.PATH_MAX))
      (Demo.PATH_MAX - 1) (log Demo.World (EvGetenv override_var) st)
    = (n, real_path, st') /\
    (0 <= n)%Z /\ errno st' = 0%Z.
Proof.
  intros Hn Hlong st p.
  assert (Hne : c_str ov <> []).
  { rewrite (c_str_id ov Hn). intros ->. simpl in Hlong.
    unfold INT_MAX in Hlong. lia. }
  assert (T : takes_override Demo.World (Some p) st = true).
  { apply (takes_override_intro Demo.World p st ov);
      [reflexivity|reflexivity|exact Hne]. }
  split; [exact T|split].
  - apply (readlink_override_errno Demo.World Demo.PATH_MAX Demo.EINVAL
             Demo.ENOSYS Demo.EOVERFLOW Demo.dlsym_next Demo.code_readlink
             Demo.junk p (Demo.room 20) 20 st 1%positive T).
    + reflexivity.
    + vm_compute. discriminate.
    + change (INT_MAX < Z.of_nat (length (c_str ov)))%Z.
      rewrite (c_str_id ov Hn). exact Hlong.
  - destruct (call_real_readlink_resolved Demo.World Demo.ENOSYS
                Demo.dlsym_next Demo.code_readlink (Some p)
                (Some (uninitialized Demo.junk Demo.PATH_MAX))
                (Demo.PATH_MAX - 1)
                (log Demo.World (EvGetenv override_var) st) 1%positive
                eq_refl) as (st' & E & He & _).
    eexists _, _, st'. split; [exact E|]. split.
    + vm_compute. discriminate.
    + rewrite He. vm_compute. reflexivity.
Qed.

(** With an override of 2^31 bytes the wrapper returns with [errno] set to
    EOVERFLOW after an inner call that left it at 0. *)
Lemma override_keeps_errno_counterexample :
  ~ override_keeps_errno Demo.World Demo.PATH_MAX Demo.EINVAL Demo.ENOSYS
      Demo.EOVERFLOW Demo.dlsym_next Demo.code_readlink Demo.junk.
Proof.
  intros H.
  destruct (demo_long_override Demo.huge_override)
    as (T & E & n & rp & st' & C & Hn & He).
  - apply repeat_absent. discriminate.
  - unfold Demo.huge_override. rewrite repeat_length, N_nat_Z.
    reflexivity.
  - specialize (H _ (Demo.room 20) 20 _ n rp st' T C Hn).
    unfold Demo.readlink in E. rewrite E, He in H.
    unfold Demo.EOVERFLOW in H. discriminate H.
Qed.
